(** * MagnoRelSim2D: a shallow embedding of [magno_rel.py]

    The simulator of [magno_rel.py] evolves three numpy arrays ([Bz], [Ex],
    [Ey]) with one mutating method, [step].  This file embeds the class as
    Rocq definitions and proves properties of it.

    Modelling conventions.
    - A Python [int] is a [Z]; a Python [float] and a float64 array cell is a
      real number ([R]): rounding, overflow and signed zeros are idealised
      away.  The one [nan] that the code can produce out of finite fields,
      [np.mean] of an empty array, is kept: it is [None] in [option R].
    - A 2-D [ndarray] is its shape together with a cell function; cells
      outside the shape carry no meaning.
    - Basic slices follow CPython's index adjustment, elementwise operations
      follow numpy's broadcasting and raise [ValueError] on a shape mismatch.
    - A value that flows through the code is a float or a 2-D array; this
      is also what a source may return.
    - A method that mutates [self] is a function from the simulator to an
      outcome and the simulator left behind: an exception does not roll
      back what was mutated before it. *)

From Stdlib Require Import Reals Lra Lia ZArith List Bool Arith.
Import ListNotations.

Open Scope R_scope.

(** ** Exceptions and results *)

(** [TypeError] and [ValueError] are the exceptions the interpreter and numpy
    raise in this code; [ConfigurationError] is the class the specification
    names for construction: no line of [magno_rel.py] raises it. *)
Inductive pyexc : Type :=
| TypeError
| ValueError
| ConfigurationError.

Inductive result (A : Type) : Type :=
| Done (a : A)
| Raised (e : pyexc).

Arguments Done {A} a.
Arguments Raised {A} e.

Definition bindR {A B : Type} (r : result A) (k : A -> result B) : result B :=
  match r with
  | Done a => k a
  | Raised e => Raised e
  end.

Notation "'let*' x ':=' r 'in' k" := (bindR r (fun x => k))
  (at level 10, x name, r at level 100, k at level 200).

(** ** Arrays *)

Record ndarray : Type := mk_ndarray {
  shape0 : nat;
  shape1 : nat;
  item : nat -> nat -> R
}.

(** What a Python expression of this program can evaluate to: a bare float
    or an array. *)
Inductive pyvalue : Type :=
| PyFloat (r : R)
| NdArray (a : ndarray).

(** [np.zeros((d0, d1))]: numpy refuses negative dimensions. *)
Definition np_zeros (d0 d1 : Z) : result ndarray :=
  if ((d0 <? 0) || (d1 <? 0))%Z then Raised ValueError
  else Done {| shape0 := Z.to_nat d0; shape1 := Z.to_nat d1;
               item := fun _ _ => 0 |}.

(** Elementwise operation with a scalar, or a ufunc: [k * A], [A ** 2],
    [np.sqrt(A)]. *)
Definition arr_map (f : R -> R) (A : ndarray) : ndarray :=
  {| shape0 := shape0 A; shape1 := shape1 A;
     item := fun i j => f (item A i j) |}.

(** Broadcasting of one axis: equal lengths, or one of them is 1. *)
Definition bcast_dim (a b : nat) : option nat :=
  if (a =? b)%nat then Some a
  else if (a =? 1)%nat then Some b
  else if (b =? 1)%nat then Some a
  else None.

(** An axis of length 1 is read at index 0 whatever the index asked. *)
Definition bcast_idx (d i : nat) : nat := if (d =? 1)%nat then 0%nat else i.

Definition bcast_item (A : ndarray) (i j : nat) : R :=
  item A (bcast_idx (shape0 A) i) (bcast_idx (shape1 A) j).

(** [A op B] for two arrays. *)
Definition arr_binop (op : R -> R -> R) (A B : ndarray) : result ndarray :=
  match bcast_dim (shape0 A) (shape0 B), bcast_dim (shape1 A) (shape1 B) with
  | Some d0, Some d1 =>
      Done {| shape0 := d0; shape1 := d1;
              item := fun i j => op (bcast_item A i j) (bcast_item B i j) |}
  | _, _ => Raised ValueError
  end.

(** ** Slices *)

(** A basic slice [start:stop] (step 1); [None] is an omitted bound. *)
Record pyslice : Type := Slice { start : option Z; stop : option Z }.

Definition full : pyslice := Slice None None.                 (* [:]     *)
Definition range (a b : Z) : pyslice := Slice (Some a) (Some b). (* [a:b] *)
Definition upto (b : Z) : pyslice := Slice None (Some b).     (* [:b]    *)
Definition from (a : Z) : pyslice := Slice (Some a) None.     (* [a:]    *)

(** CPython's adjustment of one bound against the axis length: a negative
    bound counts from the end, and the result is clipped to [0, len]. *)
Definition adjust (len dflt : Z) (o : option Z) : Z :=
  match o with
  | None => dflt
  | Some v => if (v <? 0)%Z then Z.max (v + len) 0 else Z.min v len
  end.

(** First index and number of indices selected on an axis of length [len]. *)
Definition slice_lo (s : pyslice) (len : nat) : nat :=
  Z.to_nat (adjust (Z.of_nat len) 0 (start s)).

Definition slice_len (s : pyslice) (len : nat) : nat :=
  Z.to_nat (adjust (Z.of_nat len) (Z.of_nat len) (stop s)
            - adjust (Z.of_nat len) 0 (start s)).

(** [A[s0, s1]] *)
Definition getitem (A : ndarray) (s0 s1 : pyslice) : ndarray :=
  {| shape0 := slice_len s0 (shape0 A);
     shape1 := slice_len s1 (shape1 A);
     item := fun i j =>
       item A (slice_lo s0 (shape0 A) + i) (slice_lo s1 (shape1 A) + j) |}.

Definition in_window (lo len i : nat) : bool :=
  ((lo <=? i) && (i <? lo + len))%nat.

(** [A[s0, s1] = V], for [V] of the shape of the window. *)
Definition setitem (A : ndarray) (s0 s1 : pyslice) (V : ndarray) : ndarray :=
  {| shape0 := shape0 A; shape1 := shape1 A;
     item := fun i j =>
       if in_window (slice_lo s0 (shape0 A)) (slice_len s0 (shape0 A)) i
          && in_window (slice_lo s1 (shape1 A)) (slice_len s1 (shape1 A)) j
       then item V (i - slice_lo s0 (shape0 A)) (j - slice_lo s1 (shape1 A))
       else item A i j |}.

(** ** In-place operators *)

(** The right operand of an in-place operator must broadcast to the shape of
    the left one. *)
Definition fits (d x : nat) : bool := ((x =? d) || (x =? 1))%nat.

(** [A op= v] *)
Definition inplace (op : R -> R -> R) (A : ndarray) (v : pyvalue)
  : result ndarray :=
  match v with
  | PyFloat r => Done (arr_map (fun a => op a r) A)
  | NdArray X =>
      if fits (shape0 A) (shape0 X) && fits (shape1 A) (shape1 X)
      then Done {| shape0 := shape0 A; shape1 := shape1 A;
                   item := fun i j => op (item A i j) (bcast_item X i j) |}
      else Raised ValueError
  end.

(** [A[s0, s1] op= v]: the operator runs on the view, which is then stored
    back. *)
Definition inplace_slice (op : R -> R -> R) (A : ndarray) (s0 s1 : pyslice)
    (v : pyvalue) : result ndarray :=
  let* V := inplace op (getitem A s0 s1) v in
  Done (setitem A s0 s1 V).

(** [A[s0, s1] *= r] for a float [r], which cannot fail. *)
Definition imul_slice (A : ndarray) (s0 s1 : pyslice) (r : R) : ndarray :=
  setitem A s0 s1 (arr_map (fun a => a * r) (getitem A s0 s1)).

(** [v[s0, s1]]: a float is not subscriptable. *)
Definition subscript (v : pyvalue) (s0 s1 : pyslice) : result ndarray :=
  match v with
  | PyFloat _ => Raised TypeError
  | NdArray a => Done (getitem a s0 s1)
  end.

(** ** Reductions *)

Fixpoint sum_upto (n : nat) (f : nat -> R) : R :=
  match n with
  | O => 0
  | S k => sum_upto k f + f k
  end.

Definition arr_sum (A : ndarray) : R :=
  sum_upto (shape0 A) (fun i => sum_upto (shape1 A) (fun j => item A i j)).

Definition size (A : ndarray) : nat := (shape0 A * shape1 A)%nat.

(** [np.mean(A)]: the sum over the cell count; [nan] for an empty array. *)
Definition np_mean (A : ndarray) : option R :=
  if (size A =? 0)%nat then None else Some (arr_sum A / INR (size A)).

(** Float addition where [None] is [nan]. *)
Definition fadd (x y : option R) : option R :=
  match x, y with
  | Some a, Some b => Some (a + b)
  | _, _ => None
  end.

(** ** The simulator *)

Record MagnoRelSim2D : Type := mk_sim {
  nx : Z;
  ny : Z;
  dx : R;
  dy : R;
  dt : R;
  c : R;
  k_rel : R;
  alpha_emerge : R;
  beta_sat : R;
  sigma_damp : R;
  Ex : ndarray;
  Ey : ndarray;
  Bz : ndarray;
  energy_hist : list (option R)
}.

Definition set_Ex (a : ndarray) (self : MagnoRelSim2D) : MagnoRelSim2D :=
  mk_sim (nx self) (ny self) (dx self) (dy self) (dt self) (c self)
    (k_rel self) (alpha_emerge self) (beta_sat self) (sigma_damp self)
    a (Ey self) (Bz self) (energy_hist self).

Definition set_Ey (a : ndarray) (self : MagnoRelSim2D) : MagnoRelSim2D :=
  mk_sim (nx self) (ny self) (dx self) (dy self) (dt self) (c self)
    (k_rel self) (alpha_emerge self) (beta_sat self) (sigma_damp self)
    (Ex self) a (Bz self) (energy_hist self).

Definition set_Bz (a : ndarray) (self : MagnoRelSim2D) : MagnoRelSim2D :=
  mk_sim (nx self) (ny self) (dx self) (dy self) (dt self) (c self)
    (k_rel self) (alpha_emerge self) (beta_sat self) (sigma_damp self)
    (Ex self) (Ey self) a (energy_hist self).

Definition set_energy_hist (h : list (option R)) (self : MagnoRelSim2D)
  : MagnoRelSim2D :=
  mk_sim (nx self) (ny self) (dx self) (dy self) (dt self) (c self)
    (k_rel self) (alpha_emerge self) (beta_sat self) (sigma_damp self)
    (Ex self) (Ey self) (Bz self) h.

(** [MagnoRelSim2D(nx, ny, dx, dy, dt, c, k_rel, alpha_emerge, beta_sat,
    sigma_damp)].  The keyword defaults of the source are [c = 1.0] and [0.0]
    for the four coefficients.  The three [np.zeros] calls are the only
    statements that can raise. *)
Definition __init__ (nx ny : Z)
    (dx dy dt c k_rel alpha_emerge beta_sat sigma_damp : R)
  : result MagnoRelSim2D :=
  let* Ex0 := np_zeros (nx + 1) ny in
  let* Ey0 := np_zeros nx (ny + 1) in
  let* Bz0 := np_zeros (nx + 1) (ny + 1) in
  Done (mk_sim nx ny dx dy dt c k_rel alpha_emerge beta_sat sigma_damp
          Ex0 Ey0 Bz0 []).

(** [c_eff]: the bare float [self.c] when [k_rel == 0.0], an array of the
    shape of [Bz] otherwise. *)
Definition c_eff (self : MagnoRelSim2D) : pyvalue :=
  if Req_dec_T (k_rel self) 0 then PyFloat (c self)
  else NdArray
         (arr_map (fun d => c self / d)
            (arr_map sqrt
               (arr_map (fun x => 1 + x)
                  (arr_map (fun x => k_rel self * x)
                     (arr_map (fun b => b ^ 2) (Bz self)))))).

(** [curl_E]: the discrete curl of [(Ex, Ey)] on the interior window. *)
Definition curl_E (self : MagnoRelSim2D) : result ndarray :=
  let* dEx :=
    arr_binop Rminus
      (getitem (Ex self) (range 1 (nx self)) (range 1 (ny self)))
      (getitem (Ex self) (range 1 (nx self)) (range 0 (ny self - 1))) in
  let dEx_dy := arr_map (fun x => x / dy self) dEx in
  let* dEy :=
    arr_binop Rminus
      (getitem (Ey self) (range 1 (nx self)) (range 1 (ny self)))
      (getitem (Ey self) (range 0 (nx self - 1)) (range 1 (ny self))) in
  let dEy_dx := arr_map (fun x => x / dx self) dEy in
  arr_binop Rminus dEx_dy dEy_dx.

(** [curl_B]: the two flux arrays, [(dB_dy_for_Ex, -dB_dx_for_Ey)]. *)
Definition curl_B (self : MagnoRelSim2D) : result (ndarray * ndarray) :=
  let* dBy :=
    arr_binop Rminus
      (getitem (Bz self) full (from 1))
      (getitem (Bz self) full (upto (-1))) in
  let dB_dy_for_Ex := arr_map (fun x => x / dy self) dBy in
  let* dBx :=
    arr_binop Rminus
      (getitem (Bz self) (from 1) full)
      (getitem (Bz self) (upto (-1)) full) in
  let dB_dx_for_Ey := arr_map (fun x => x / dx self) dBx in
  Done (dB_dy_for_Ex, arr_map Ropp dB_dx_for_Ey).

(** [_edge_damp(A, margin, factor)]: four in-place slice products, rows
    first, then columns. *)
Definition _edge_damp (A : ndarray) (margin : Z) (factor : R) : ndarray :=
  let A1 := imul_slice A (upto margin) full factor in
  let A2 := imul_slice A1 (from (- margin)) full factor in
  let A3 := imul_slice A2 full (upto margin) factor in
  imul_slice A3 full (from (- margin)) factor.

(** The keyword defaults of [_edge_damp]; the float [0.9] is read as 9/10. *)
Definition default_margin : Z := 4.
Definition default_factor : R := 9 / 10.

(** ** Methods that mutate [self] *)

Definition M (A : Type) : Type := MagnoRelSim2D -> result A * MagnoRelSim2D.

Definition ret {A : Type} (a : A) : M A := fun self => (Done a, self).

Definition bind {A B : Type} (m : M A) (k : A -> M B) : M B :=
  fun self =>
    match m self with
    | (Done a, self') => k a self'
    | (Raised e, self') => (Raised e, self')
    end.

(** Evaluate an expression that reads [self] and may raise. *)
Definition eval {A : Type} (f : MagnoRelSim2D -> result A) : M A :=
  fun self => (f self, self).

(** Assign to an attribute of [self]. *)
Definition assign (f : MagnoRelSim2D -> MagnoRelSim2D) : M unit :=
  fun self => (Done tt, f self).

Notation "x <- m ;; k" := (bind m (fun x => k))
  (at level 61, m at next level, right associativity).
Notation "m ;; k" := (bind m (fun _ => k))
  (at level 61, right associativity).

(** The caller's source: from the step index and the current [Bz] to a
    float or an array. *)
Definition source : Type := Z -> ndarray -> pyvalue.

(** What lines 48 and 49 add to one [E] cell of value [e] whose flux cell
    is [flux]:
    [dt * (alpha_emerge * flux / (1 + beta_sat * e**2) - sigma_damp * e)]. *)
Definition E_increment (dt alpha_emerge beta_sat sigma_damp flux e : R) : R :=
  dt * (alpha_emerge * flux / (1 + beta_sat * e ^ 2) - sigma_damp * e).

(** Lines 38 to 43 of [step]: the interior of [Bz], then the source. *)
Definition advance_Bz (apply_source : option source) (t : Z) : M unit :=
  c_eff_v <- eval (fun self => Done (c_eff self)) ;;
  curlE <- eval curl_E ;;
  Bz1 <- eval (fun self =>
    let* w := subscript c_eff_v (range 1 (nx self)) (range 1 (ny self)) in
    let* rhs :=
      arr_binop Rmult
        (arr_map (fun x => dt self * x) (arr_map (fun x => x ^ 2) w))
        curlE in
    inplace_slice Rplus (Bz self)
      (range 1 (nx self)) (range 1 (ny self)) (NdArray rhs)) ;;
  assign (set_Bz Bz1) ;;
  match apply_source with
  | None => ret tt
  | Some src =>
      Bz2 <- eval (fun self => inplace Rplus (Bz self) (src t (Bz self))) ;;
      assign (set_Bz Bz2)
  end.

(** The right-hand side of lines 48 and 49 for one component [E] with its
    flux and saturation arrays. *)
Definition E_rhs (self : MagnoRelSim2D) (flux sat E : ndarray)
  : result ndarray :=
  let* q := arr_binop Rdiv (arr_map (fun x => alpha_emerge self * x) flux) sat in
  let* d := arr_binop Rminus q (arr_map (fun x => sigma_damp self * x) E) in
  Done (arr_map (fun x => dt self * x) d).

(** Lines 45 to 49 of [step]: [Ex] and [Ey] from the curl of [Bz]. *)
Definition advance_E : M unit :=
  fluxes <- eval curl_B ;;
  sat_Ex <- eval (fun self =>
    Done (arr_map (fun x => 1 + x)
            (arr_map (fun x => beta_sat self * x)
               (arr_map (fun x => x ^ 2) (Ex self))))) ;;
  sat_Ey <- eval (fun self =>
    Done (arr_map (fun x => 1 + x)
            (arr_map (fun x => beta_sat self * x)
               (arr_map (fun x => x ^ 2) (Ey self))))) ;;
  Ex1 <- eval (fun self =>
    let* rhs := E_rhs self (fst fluxes) sat_Ex (Ex self) in
    inplace Rplus (Ex self) (NdArray rhs)) ;;
  assign (set_Ex Ex1) ;;
  Ey1 <- eval (fun self =>
    let* rhs := E_rhs self (snd fluxes) sat_Ey (Ey self) in
    inplace Rplus (Ey self) (NdArray rhs)) ;;
  assign (set_Ey Ey1).

(** Lines 51 to 53 of [step]. *)
Definition damp_edges : M unit :=
  assign (fun self =>
    set_Ex (_edge_damp (Ex self) default_margin default_factor) self) ;;
  assign (fun self =>
    set_Ey (_edge_damp (Ey self) default_margin default_factor) self) ;;
  assign (fun self =>
    set_Bz (_edge_damp (Bz self) default_margin default_factor) self).

(** The value computed on line 55. *)
Definition energy (self : MagnoRelSim2D) : option R :=
  fadd (fadd (np_mean (arr_map (fun x => x ^ 2) (Bz self)))
             (np_mean (arr_map (fun x => x ^ 2) (Ex self))))
       (np_mean (arr_map (fun x => x ^ 2) (Ey self))).

(** Lines 55 and 56 of [step]. *)
Definition record_energy : M unit :=
  assign (fun self =>
    set_energy_hist (energy_hist self ++ [energy self]) self).

(** [step(apply_source, t)] *)
Definition step (apply_source : option source) (t : Z) : M unit :=
  advance_Bz apply_source t ;;
  advance_E ;;
  damp_edges ;;
  record_energy.

(** A driver: call [step] once per entry of [calls]; the first exception
    stops the run, as it does in a Python loop. *)
Fixpoint steps (calls : list (option source * Z)) : M unit :=
  match calls with
  | [] => ret tt
  | (apply_source, t) :: rest => step apply_source t ;; steps rest
  end.


(** ** The drivers *)

(** The closure [source] that [make_source] of [export_demo.py] returns, and
    that [run_demo.py] and [make_gif.py] define at module level: a Gaussian
    pulse centred between the nodes, switched off from step [src_steps] on.
    [nx], [ny] are the entries of the parameter file, [sim] the simulator
    whose [Bz] gives the shape of the two index grids of [np.meshgrid];
    [src_steps], [amp], [sigma] are the values read from the parameter file.
    The two index grids have one shape by construction, so the sum of the
    squared distances is written cell by cell. *)
Definition make_source (nx ny : Z) (sim : MagnoRelSim2D) (src_steps : Z)
    (amp sigma : R) : source :=
  let cx := IZR (nx / 2) + 1 / 2 in
  let cy := IZR (ny / 2) + 1 / 2 in
  let r2 := {| shape0 := shape0 (Bz sim); shape1 := shape1 (Bz sim);
               item := fun i j => (INR i - cx) ^ 2 + (INR j - cy) ^ 2 |} in
  fun t _ =>
    if (t >=? src_steps)%Z then PyFloat 0
    else NdArray (arr_map (fun x => amp * x)
                    (arr_map exp
                       (arr_map (fun x => - x / (2 * sigma ^ 2)) r2))).

(** The frame arithmetic of [export_demo.py] (and of [make_gif.py], where
    [target_frames] is 600 and there is no override): how many simulator
    steps one frame advances, and how many frames are rendered. *)
Definition stride_of (stride_arg steps target_frames : Z) : Z :=
  if (0 <? stride_arg)%Z then stride_arg
  else Z.max 1 (steps / Z.max 1 target_frames).

Definition frames_to_render (stride_arg steps target_frames : Z) : Z :=
  Z.min target_frames (steps / stride_of stride_arg steps target_frames).

(** The step index [update] passes on the [s]-th call of frame
    [frame_idx]. *)
Definition frame_step_index (stride frame_idx s : Z) : Z :=
  (frame_idx * stride + s)%Z.

(** The entry ["final_energy"] of the summary [run_demo.py] writes:
    [sim.energy_hist[-1] if sim.energy_hist else None].  The outer [None]
    is Python's [None], an inner one is [nan]. *)
Definition final_energy (sim : MagnoRelSim2D) : option (option R) :=
  match energy_hist sim with
  | [] => None
  | e :: rest => Some (last (e :: rest) e)
  end.

(** * Vocabulary of the properties *)

Definition zeros (d0 d1 : nat) : ndarray :=
  {| shape0 := d0; shape1 := d1; item := fun _ _ => 0 |}.

(** The shapes the constructor gives the three grids. *)
Definition shapes_ok (self : MagnoRelSim2D) : Prop :=
  (0 <= nx self)%Z /\ (0 <= ny self)%Z /\
  shape0 (Ex self) = Z.to_nat (nx self + 1) /\
  shape1 (Ex self) = Z.to_nat (ny self) /\
  shape0 (Ey self) = Z.to_nat (nx self) /\
  shape1 (Ey self) = Z.to_nat (ny self + 1) /\
  shape0 (Bz self) = Z.to_nat (nx self + 1) /\
  shape1 (Bz self) = Z.to_nat (ny self + 1).

(** The two arrays [curl_B] returns, written out: [Bz[:, 1:] - Bz[:, :-1]]
    over [dy], and the negation of [Bz[1:, :] - Bz[:-1, :]] over [dx]. *)
Definition flux_Ex (self : MagnoRelSim2D) : ndarray :=
  arr_map (fun x => x / dy self)
    {| shape0 := shape0 (Bz self); shape1 := (shape1 (Bz self) - 1)%nat;
       item := fun i j =>
         bcast_item (getitem (Bz self) full (from 1)) i j
         - bcast_item (getitem (Bz self) full (upto (-1))) i j |}.

Definition flux_Ey (self : MagnoRelSim2D) : ndarray :=
  arr_map Ropp
    (arr_map (fun x => x / dx self)
       {| shape0 := (shape0 (Bz self) - 1)%nat; shape1 := shape1 (Bz self);
          item := fun i j =>
            bcast_item (getitem (Bz self) (from 1) full) i j
            - bcast_item (getitem (Bz self) (upto (-1)) full) i j |}).

(** What a source may return for a [Bz] of shape [(d0, d1)]: a float, or an
    array that broadcasts to that shape. *)
Definition value_fits (A : ndarray) (v : pyvalue) : bool :=
  match v with
  | PyFloat _ => true
  | NdArray X => fits (shape0 A) (shape0 X) && fits (shape1 A) (shape1 X)
  end.

Definition source_ok (apply_source : option source) (d0 d1 : nat) : Prop :=
  match apply_source with
  | None => True
  | Some src =>
      forall t B, shape0 B = d0 -> shape1 B = d1 ->
                  value_fits B (src t B) = true
  end.

(** The construction parameters of a simulator. *)
Definition params (s : MagnoRelSim2D)
  : Z * Z * (R * R * R) * (R * R * R * R * R) :=
  (nx s, ny s, (dx s, dy s, dt s),
   (c s, k_rel s, alpha_emerge s, beta_sat s, sigma_damp s)).

(** [s'] has the parameters of [s] and grids of the shapes of those of
    [s]. *)
Definition same_shapes (s s' : MagnoRelSim2D) : Prop :=
  params s' = params s /\
  (shape0 (Ex s') = shape0 (Ex s) /\ shape1 (Ex s') = shape1 (Ex s)) /\
  (shape0 (Ey s') = shape0 (Ey s) /\ shape1 (Ey s') = shape1 (Ey s)) /\
  (shape0 (Bz s') = shape0 (Bz s) /\ shape1 (Bz s') = shape1 (Bz s)).

(** The relation between a simulator and what the lines before the energy
    bookkeeping leave of it: the history is untouched as well. *)
Definition fields_only (s s' : MagnoRelSim2D) : Prop :=
  same_shapes s s' /\ energy_hist s' = energy_hist s.

(** A method keeps a relation between the simulator before and after it,
    whether it returns or raises. *)
Definition keeps (Rel : MagnoRelSim2D -> MagnoRelSim2D -> Prop) {A : Type}
    (m : M A) : Prop :=
  forall self, Rel self (snd (m self)).

(** Whether index [i] of an axis of length [len] lies within [m] cells of
    one of its two ends. *)
Definition near_edge (m len i : nat) : bool :=
  ((i <? m) || (len - m <=? i))%nat.




(** The preconditions the specification puts on construction. *)
Definition valid_config (nx ny : Z) (dx dy dt : R) : Prop :=
  (1 <= nx)%Z /\ (1 <= ny)%Z /\ 0 < dx /\ 0 < dy /\ 0 < dt.

(** ** Worked inputs *)

(** [MagnoRelSim2D(2, 2, 1.0, 1.0, 1.0)]: every coefficient at its default. *)
Definition sim_default : MagnoRelSim2D :=
  mk_sim 2 2 1 1 1 1 0 0 0 0 (zeros 3 2) (zeros 2 3) (zeros 3 3) [].

(** [MagnoRelSim2D(2, 2, 1.0, 1.0, 1.0, k_rel=1.0, alpha_emerge=1.0,
    beta_sat=1.0)] *)
Definition sim_coupled : MagnoRelSim2D :=
  mk_sim 2 2 1 1 1 1 1 1 1 0 (zeros 3 2) (zeros 2 3) (zeros 3 3) [].

(** A uniform field of ones on a 9 by 9 grid, the smallest whose damping
    strips do not overlap. *)
Definition ones_9x9 : ndarray :=
  {| shape0 := 9; shape1 := 9; item := fun _ _ => 1 |}.

(** A pulse that adds 1 to every node for the first three step indices, as
    a float chosen by a test and as a float computed from the test. *)
Definition pulse_a : source :=
  fun t _ => if (t <? 3)%Z then PyFloat 1 else PyFloat 0.


(** ** Vocabulary of the further properties *)

(** Node [(i, j)] lies in the window [1:nx, 1:ny] of [Bz]. *)
Definition interior (self : MagnoRelSim2D) (i j : nat) : bool :=
  ((1 <=? Z.of_nat i) && (Z.of_nat i <? nx self)
   && ((1 <=? Z.of_nat j) && (Z.of_nat j <? ny self)))%Z.

(** What [A += v] adds to cell [(i, j)]. *)
Definition added (v : pyvalue) (i j : nat) : R :=
  match v with
  | PyFloat r => r
  | NdArray X => bcast_item X i j
  end.

(** In how many of the two strips of an axis of length [len] the index [i]
    lies: the first [margin] indices, and the last [margin] ones (all of
    them when [margin] is 0, since [-0:] is [0:]). *)
Definition hits (margin : Z) (len i : nat) : nat :=
  ((if (Z.of_nat i <? margin)%Z then 1 else 0)
   + (if ((margin =? 0) || (Z.of_nat len - margin <=? Z.of_nat i))%Z
      then 1 else 0))%nat.

(** Every cell of the three grids is zero. *)
Definition all_zero (self : MagnoRelSim2D) : Prop :=
  (forall i j, (i < shape0 (Bz self))%nat -> (j < shape1 (Bz self))%nat ->
     item (Bz self) i j = 0) /\
  (forall i j, (i < shape0 (Ex self))%nat -> (j < shape1 (Ex self))%nat ->
     item (Ex self) i j = 0) /\
  (forall i j, (i < shape0 (Ey self))%nat -> (j < shape1 (Ey self))%nat ->
     item (Ey self) i j = 0).

(** What the optional source adds to node [(i, j)] of the grid [B] it is
    called on; nothing when there is no source. *)
Definition source_adds (apply_source : option source) (t : Z) (B : ndarray)
    (i j : nat) : R :=
  match apply_source with
  | None => 0
  | Some src => added (src t B) i j
  end.

(** A source that returns a 2 by 2 array whatever the grid. *)
Definition misfit_source : source := fun _ _ => NdArray (zeros 2 2).


(** A uniform field of ones. *)
Definition ones (d0 d1 : nat) : ndarray :=
  {| shape0 := d0; shape1 := d1; item := fun _ _ => 1 |}.

(** * Properties *)

(** ** Slices and broadcasting *)

Ltac slice_arith :=
  unfold slice_lo, slice_len, adjust, range, upto, from, full;
  cbn [start stop];
  repeat match goal with
         | |- context [(?a <? ?b)%Z] => destruct (Z.ltb_spec a b)
         end;
  lia.

Lemma slice_lo_full (n : nat) : slice_lo full n = 0%nat.
Proof. reflexivity. Qed.

Lemma slice_len_full (n : nat) : slice_len full n = n.
Proof. slice_arith. Qed.

Lemma slice_len_upto_neg1 (n : nat) : slice_len (upto (-1)) n = (n - 1)%nat.
Proof. slice_arith. Qed.

Lemma slice_lo_from1 (n : nat) : (1 <= n)%nat -> slice_lo (from 1) n = 1%nat.
Proof. intros; slice_arith. Qed.

Lemma slice_len_from1 (n : nat) : slice_len (from 1) n = (n - 1)%nat.
Proof. slice_arith. Qed.

(** The interior window [1:n] and its shifted copy [0:n-1] have the same
    length on the axes of the staggered grids, also when [n] is 0 (the
    shifted copy is only taken on an axis of length [n], where the negative
    stop [-1] selects nothing). *)
Lemma slice_len_interior (n : Z) (len : nat) :
  (0 <= n)%Z -> (Z.to_nat n <= len)%nat ->
  slice_len (range 1 n) len = Z.to_nat (n - 1).
Proof. intros; slice_arith. Qed.

Lemma slice_len_shifted (n : Z) (len : nat) :
  (0 <= n)%Z -> len = Z.to_nat n ->
  slice_len (range 0 (n - 1)) len = Z.to_nat (n - 1).
Proof. intros; slice_arith. Qed.

Lemma bcast_dim_same (a : nat) : bcast_dim a a = Some a.
Proof. unfold bcast_dim. now rewrite Nat.eqb_refl. Qed.

Lemma bcast_idx_lt (d i : nat) : (i < d)%nat -> bcast_idx d i = i.
Proof.
  unfold bcast_idx. intros H.
  destruct (Nat.eqb_spec d 1); [lia | reflexivity].
Qed.

Lemma fits_same (d : nat) : fits d d = true.
Proof. unfold fits. now rewrite Nat.eqb_refl. Qed.

(** On operands of one shape the binary operation does not raise and has
    that shape. *)
Lemma arr_binop_same (op : R -> R -> R) (A B : ndarray) :
  shape0 A = shape0 B -> shape1 A = shape1 B ->
  arr_binop op A B =
    Done {| shape0 := shape0 A; shape1 := shape1 A;
            item := fun i j => op (bcast_item A i j) (bcast_item B i j) |}.
Proof.
  intros H0 H1. unfold arr_binop.
  now rewrite <- H0, <- H1, !bcast_dim_same.
Qed.

Lemma inplace_same (op : R -> R -> R) (A X : ndarray) :
  shape0 X = shape0 A -> shape1 X = shape1 A ->
  inplace op A (NdArray X) =
    Done {| shape0 := shape0 A; shape1 := shape1 A;
            item := fun i j => op (item A i j) (bcast_item X i j) |}.
Proof.
  intros H0 H1. unfold inplace.
  now rewrite H0, H1, !fits_same.
Qed.

(** An in-place operator never changes the shape of its target. *)
Lemma inplace_shape (op : R -> R -> R) (A A' : ndarray) (v : pyvalue) :
  inplace op A v = Done A' ->
  shape0 A' = shape0 A /\ shape1 A' = shape1 A.
Proof.
  unfold inplace. destruct v as [r | X].
  - intros [= <-]. now cbn.
  - destruct (fits _ _ && fits _ _); [intros [= <-]; now cbn | discriminate].
Qed.

Lemma inplace_slice_shape (op : R -> R -> R) (A A' : ndarray)
    (s0 s1 : pyslice) (v : pyvalue) :
  inplace_slice op A s0 s1 v = Done A' ->
  shape0 A' = shape0 A /\ shape1 A' = shape1 A.
Proof.
  unfold inplace_slice, bindR.
  destruct (inplace op (getitem A s0 s1) v); [| discriminate].
  intros [= <-]. now cbn.
Qed.

Lemma _edge_damp_shape (A : ndarray) (margin : Z) (factor : R) :
  shape0 (_edge_damp A margin factor) = shape0 A /\
  shape1 (_edge_damp A margin factor) = shape1 A.
Proof. now cbn. Qed.

(** ** Construction *)

Lemma np_zeros_Done (d0 d1 : Z) :
  (0 <= d0)%Z -> (0 <= d1)%Z ->
  np_zeros d0 d1 = Done (zeros (Z.to_nat d0) (Z.to_nat d1)).
Proof.
  intros H0 H1. unfold np_zeros.
  destruct (Z.ltb_spec d0 0); [lia |].
  destruct (Z.ltb_spec d1 0); [lia |].
  reflexivity.
Qed.

Lemma __init___Done (nx0 ny0 : Z) (dx0 dy0 dt0 c0 k a b sg : R) :
  (0 <= nx0)%Z -> (0 <= ny0)%Z ->
  __init__ nx0 ny0 dx0 dy0 dt0 c0 k a b sg =
    Done (mk_sim nx0 ny0 dx0 dy0 dt0 c0 k a b sg
            (zeros (Z.to_nat (nx0 + 1)) (Z.to_nat ny0))
            (zeros (Z.to_nat nx0) (Z.to_nat (ny0 + 1)))
            (zeros (Z.to_nat (nx0 + 1)) (Z.to_nat (ny0 + 1)))
            []).
Proof.
  intros Hx Hy. unfold __init__.
  rewrite !np_zeros_Done by lia. reflexivity.
Qed.

Lemma __init___Raised (nx0 ny0 : Z) (dx0 dy0 dt0 c0 k a b sg : R) :
  (nx0 < 0 \/ ny0 < 0)%Z ->
  __init__ nx0 ny0 dx0 dy0 dt0 c0 k a b sg = Raised ValueError.
Proof.
  intros H. unfold __init__, np_zeros, bindR.
  destruct (Z.ltb_spec (nx0 + 1) 0), (Z.ltb_spec ny0 0),
    (Z.ltb_spec nx0 0), (Z.ltb_spec (ny0 + 1) 0); cbn; try reflexivity; lia.
Qed.

(** Whatever the constructor returns is the record of its arguments with
    zero grids of the staggered shapes. *)
Lemma __init___inv (nx0 ny0 : Z) (dx0 dy0 dt0 c0 k a b sg : R)
    (self : MagnoRelSim2D) :
  __init__ nx0 ny0 dx0 dy0 dt0 c0 k a b sg = Done self ->
  (0 <= nx0)%Z /\ (0 <= ny0)%Z /\
  self = mk_sim nx0 ny0 dx0 dy0 dt0 c0 k a b sg
           (zeros (Z.to_nat (nx0 + 1)) (Z.to_nat ny0))
           (zeros (Z.to_nat nx0) (Z.to_nat (ny0 + 1)))
           (zeros (Z.to_nat (nx0 + 1)) (Z.to_nat (ny0 + 1)))
           [].
Proof.
  intros H.
  destruct (Z.lt_ge_cases nx0 0) as [Hx | Hx].
  { rewrite __init___Raised in H by lia. discriminate. }
  destruct (Z.lt_ge_cases ny0 0) as [Hy | Hy].
  { rewrite __init___Raised in H by lia. discriminate. }
  rewrite __init___Done in H by lia.
  injection H as <-. auto.
Qed.

Lemma __init___shapes_ok (nx0 ny0 : Z) (dx0 dy0 dt0 c0 k a b sg : R)
    (self : MagnoRelSim2D) :
  __init__ nx0 ny0 dx0 dy0 dt0 c0 k a b sg = Done self -> shapes_ok self.
Proof.
  intros H. apply __init___inv in H as (Hx & Hy & ->).
  unfold shapes_ok; cbn. repeat split; assumption.
Qed.

(** ** The curls *)

(** On the staggered shapes [curl_E] does not raise, and its result has the
    shape of the interior window of [Bz]. *)
Lemma curl_E_ok (self : MagnoRelSim2D) :
  shapes_ok self ->
  exists C, curl_E self = Done C /\
            shape0 C = Z.to_nat (nx self - 1) /\
            shape1 C = Z.to_nat (ny self - 1).
Proof.
  intros (Hx & Hy & Hex0 & Hex1 & Hey0 & Hey1 & _ & _).
  unfold curl_E.
  rewrite (arr_binop_same Rminus (getitem (Ex self) _ _)).
  2: reflexivity.
  2: { cbn. rewrite slice_len_interior, slice_len_shifted by lia. reflexivity. }
  cbn [bindR].
  rewrite (arr_binop_same Rminus (getitem (Ey self) _ _)).
  2: { cbn. rewrite slice_len_interior, slice_len_shifted by lia. reflexivity. }
  2: reflexivity.
  cbn [bindR].
  rewrite arr_binop_same.
  - eexists; split; [reflexivity |]. cbn.
    rewrite !slice_len_interior by lia. split; reflexivity.
  - cbn. rewrite !slice_len_interior by lia. reflexivity.
  - cbn. rewrite !slice_len_interior by lia. reflexivity.
Qed.

(** [curl_B] never raises: the two slices it subtracts always have one
    shape. *)
Lemma curl_B_Done (self : MagnoRelSim2D) :
  curl_B self = Done (flux_Ex self, flux_Ey self).
Proof.
  unfold curl_B, flux_Ex, flux_Ey.
  rewrite (arr_binop_same Rminus (getitem (Bz self) full (from 1))).
  2: reflexivity.
  2: { cbn. now rewrite slice_len_from1, slice_len_upto_neg1. }
  cbn [bindR].
  rewrite (arr_binop_same Rminus (getitem (Bz self) (from 1) full)).
  2: { cbn. now rewrite slice_len_from1, slice_len_upto_neg1. }
  2: reflexivity.
  cbn [bindR getitem shape0 shape1].
  now rewrite !slice_len_full, !slice_len_from1.
Qed.

(** The cells of the two fluxes: forward differences of [Bz]. *)
Lemma flux_Ex_item (self : MagnoRelSim2D) (i j : nat) :
  (i < shape0 (Bz self))%nat -> (j + 1 < shape1 (Bz self))%nat ->
  item (flux_Ex self) i j =
    (item (Bz self) i (j + 1) - item (Bz self) i j) / dy self.
Proof.
  intros Hi Hj. unfold flux_Ex, bcast_item. cbn.
  rewrite slice_len_full, slice_len_from1, slice_len_upto_neg1.
  rewrite slice_lo_from1 by lia.
  rewrite !bcast_idx_lt by lia.
  now rewrite (Nat.add_comm 1 j).
Qed.

Lemma flux_Ey_item (self : MagnoRelSim2D) (i j : nat) :
  (i + 1 < shape0 (Bz self))%nat -> (j < shape1 (Bz self))%nat ->
  item (flux_Ey self) i j =
    - ((item (Bz self) (i + 1) j - item (Bz self) i j) / dx self).
Proof.
  intros Hi Hj. unfold flux_Ey, bcast_item. cbn.
  rewrite slice_len_full, slice_len_from1, slice_len_upto_neg1.
  rewrite slice_lo_from1 by lia.
  rewrite !bcast_idx_lt by lia.
  now rewrite (Nat.add_comm 1 i).
Qed.

(** ** [c_eff] and the update of [Bz] *)

Lemma c_eff_zero (self : MagnoRelSim2D) :
  k_rel self = 0 -> c_eff self = PyFloat (c self).
Proof.
  intros H. unfold c_eff. destruct (Req_dec_T (k_rel self) 0); [reflexivity | contradiction].
Qed.

Lemma c_eff_nonzero (self : MagnoRelSim2D) :
  k_rel self <> 0 ->
  exists a, c_eff self = NdArray a /\
            shape0 a = shape0 (Bz self) /\ shape1 a = shape1 (Bz self) /\
            forall i j,
              item a i j =
                c self / sqrt (1 + k_rel self * (item (Bz self) i j) ^ 2).
Proof.
  intros H. unfold c_eff. destruct (Req_dec_T (k_rel self) 0); [contradiction |].
  eexists; split; [reflexivity |]. cbn. auto.
Qed.

(** With [k_rel == 0] the float returned by [c_eff] is subscripted on line
    40: [step] raises before anything is assigned. *)
Lemma step_TypeError (self : MagnoRelSim2D) (apply_source : option source)
    (t : Z) :
  shapes_ok self -> k_rel self = 0 ->
  step apply_source t self = (Raised TypeError, self).
Proof.
  intros Hs Hk.
  destruct (curl_E_ok self Hs) as (C & HC & _).
  unfold step, advance_Bz, bind, eval.
  rewrite (c_eff_zero self Hk), HC. reflexivity.
Qed.

Lemma steps_TypeError (self : MagnoRelSim2D)
    (calls : list (option source * Z)) :
  shapes_ok self -> k_rel self = 0 -> snd (steps calls self) = self.
Proof.
  intros Hs Hk. destruct calls as [| [src t] rest]; [reflexivity |].
  cbn [steps]. unfold bind. now rewrite step_TypeError.
Qed.

Lemma inplace_fits (op : R -> R -> R) (A : ndarray) (v : pyvalue) :
  value_fits A v = true -> exists A', inplace op A v = Done A'.
Proof.
  destruct v as [r | X]; cbn; intros H.
  - eexists; reflexivity.
  - rewrite H. eexists; reflexivity.
Qed.

(** Lines 38 to 43 complete when [k_rel] is not zero and the source returns
    something that can be added to [Bz]; only [Bz] is assigned. *)
Lemma advance_Bz_ok (self : MagnoRelSim2D) (apply_source : option source)
    (t : Z) :
  shapes_ok self -> k_rel self <> 0 ->
  source_ok apply_source (shape0 (Bz self)) (shape1 (Bz self)) ->
  exists B', advance_Bz apply_source t self = (Done tt, set_Bz B' self) /\
             shape0 B' = shape0 (Bz self) /\ shape1 B' = shape1 (Bz self).
Proof.
  intros Hs Hk Hsrc.
  destruct (curl_E_ok self Hs) as (C & HC & HC0 & HC1).
  destruct (c_eff_nonzero self Hk) as (a & Ha & Ha0 & Ha1 & _).
  destruct Hs as (Hx & Hy & _ & _ & _ & _ & Hb0 & Hb1).
  unfold advance_Bz, bind, eval, assign.
  rewrite Ha, HC. cbn [subscript bindR].
  rewrite arr_binop_same.
  2, 3: cbn; rewrite ?Ha0, ?Ha1, ?Hb0, ?Hb1, ?HC0, ?HC1;
        rewrite slice_len_interior by lia; reflexivity.
  cbn [bindR]. unfold inplace_slice.
  rewrite inplace_same.
  2, 3: cbn; rewrite ?Ha0, ?Ha1, ?Hb0, ?Hb1;
        rewrite !slice_len_interior by lia; reflexivity.
  cbn [bindR].
  destruct apply_source as [src |].
  - match goal with
    | |- context [set_Bz ?B self] => set (B1 := B)
    end.
    cbn [Bz set_Bz].
    destruct (inplace_fits Rplus B1 (src t B1)) as (B2 & HB2).
    { apply Hsrc; reflexivity. }
    rewrite HB2. exists B2. split; [reflexivity |].
    apply inplace_shape in HB2. exact HB2.
  - eexists; split; [reflexivity |]. cbn. auto.
Qed.

(** ** The update of [Ex] and [Ey] *)

(** One component: with flux, saturation and field of one shape the
    right-hand side does not raise, and each cell of the updated field is
    the old cell plus its [E_increment]. *)
Lemma E_update_ok (self : MagnoRelSim2D) (flux E : ndarray) :
  shape0 flux = shape0 E -> shape1 flux = shape1 E ->
  exists E1,
    (let* rhs :=
       E_rhs self flux
         (arr_map (fun x => 1 + x)
            (arr_map (fun x => beta_sat self * x)
               (arr_map (fun x => x ^ 2) E))) E in
     inplace Rplus E (NdArray rhs)) = Done E1 /\
    shape0 E1 = shape0 E /\ shape1 E1 = shape1 E /\
    forall i j, (i < shape0 E)%nat -> (j < shape1 E)%nat ->
      item E1 i j =
        item E i j
        + E_increment (dt self) (alpha_emerge self) (beta_sat self)
            (sigma_damp self) (item flux i j) (item E i j).
Proof.
  intros H0 H1. unfold E_rhs.
  rewrite arr_binop_same by (cbn; assumption).
  cbn [bindR].
  rewrite arr_binop_same by (cbn; assumption).
  cbn [bindR].
  rewrite inplace_same by (cbn; assumption).
  eexists; split; [reflexivity |].
  split; [reflexivity |]. split; [reflexivity |].
  intros i j Hi Hj. unfold bcast_item, E_increment. cbn.
  rewrite H0, H1.
  rewrite !(bcast_idx_lt _ i), !(bcast_idx_lt _ j) by lia. reflexivity.
Qed.

Lemma advance_E_ok (self : MagnoRelSim2D) :
  shapes_ok self ->
  exists Ex1 Ey1,
    advance_E self = (Done tt, set_Ey Ey1 (set_Ex Ex1 self)) /\
    (shape0 Ex1 = shape0 (Ex self) /\ shape1 Ex1 = shape1 (Ex self)) /\
    (shape0 Ey1 = shape0 (Ey self) /\ shape1 Ey1 = shape1 (Ey self)) /\
    (forall i j, (i < shape0 (Ex self))%nat -> (j < shape1 (Ex self))%nat ->
       item Ex1 i j =
         item (Ex self) i j
         + E_increment (dt self) (alpha_emerge self) (beta_sat self)
             (sigma_damp self)
             ((item (Bz self) i (j + 1) - item (Bz self) i j) / dy self)
             (item (Ex self) i j)) /\
    (forall i j, (i < shape0 (Ey self))%nat -> (j < shape1 (Ey self))%nat ->
       item Ey1 i j =
         item (Ey self) i j
         + E_increment (dt self) (alpha_emerge self) (beta_sat self)
             (sigma_damp self)
             (- ((item (Bz self) (i + 1) j - item (Bz self) i j) / dx self))
             (item (Ey self) i j)).
Proof.
  intros (Hx & Hy & Hex0 & Hex1 & Hey0 & Hey1 & Hb0 & Hb1).
  destruct (E_update_ok self (flux_Ex self) (Ex self))
    as (Ex1 & HEx1 & Sx0 & Sx1 & Cx).
  { cbn. lia. } { cbn. lia. }
  destruct (E_update_ok self (flux_Ey self) (Ey self))
    as (Ey1 & HEy1 & Sy0 & Sy1 & Cy).
  { cbn. lia. } { cbn. lia. }
  exists Ex1, Ey1.
  split.
  { unfold advance_E, bind, eval, assign.
    rewrite curl_B_Done. cbn [fst snd].
    rewrite HEx1. cbn [Ey set_Ex dt alpha_emerge beta_sat sigma_damp].
    unfold E_rhs in *. cbn [Ey set_Ex dt alpha_emerge beta_sat sigma_damp].
    rewrite HEy1. reflexivity. }
  repeat split; try assumption.
  - intros i j Hi Hj. rewrite Cx, flux_Ex_item by lia. reflexivity.
  - intros i j Hi Hj. rewrite Cy, flux_Ey_item by lia. reflexivity.
Qed.

(** ** The whole step *)

Lemma step_unfold (self : MagnoRelSim2D) (apply_source : option source)
    (t : Z) (s1 s2 : MagnoRelSim2D) :
  advance_Bz apply_source t self = (Done tt, s1) ->
  advance_E s1 = (Done tt, s2) ->
  step apply_source t self =
    (Done tt, snd (record_energy (snd (damp_edges s2)))).
Proof.
  intros H1 H2. unfold step, bind. rewrite H1, H2. reflexivity.
Qed.

(** ** Shapes never change *)

Lemma same_shapes_refl (s : MagnoRelSim2D) : same_shapes s s.
Proof. unfold same_shapes; auto 10. Qed.

Lemma same_shapes_trans (s1 s2 s3 : MagnoRelSim2D) :
  same_shapes s1 s2 -> same_shapes s2 s3 -> same_shapes s1 s3.
Proof.
  unfold same_shapes.
  intros (? & (? & ?) & (? & ?) & ? & ?) (? & (? & ?) & (? & ?) & ? & ?).
  repeat split; congruence.
Qed.

Lemma same_shapes_k_rel (s s' : MagnoRelSim2D) :
  same_shapes s s' -> k_rel s' = k_rel s.
Proof. intros (H & _). unfold params in H. congruence. Qed.

Lemma shapes_ok_same (s s' : MagnoRelSim2D) :
  shapes_ok s -> same_shapes s s' -> shapes_ok s'.
Proof.
  unfold shapes_ok, same_shapes, params.
  intros (? & ? & ? & ? & ? & ? & ? & ?) (Hp & (? & ?) & (? & ?) & ? & ?).
  injection Hp as Hx Hy _ _ _ _ _ _ _ _.
  rewrite Hx, Hy. repeat split; congruence.
Qed.

Lemma fields_only_refl (s : MagnoRelSim2D) : fields_only s s.
Proof. split; [apply same_shapes_refl | reflexivity]. Qed.

Lemma fields_only_trans (s1 s2 s3 : MagnoRelSim2D) :
  fields_only s1 s2 -> fields_only s2 s3 -> fields_only s1 s3.
Proof.
  intros [H1 E1] [H2 E2].
  split; [eapply same_shapes_trans; eassumption | congruence].
Qed.

Section Keeps.

Variable Rel : MagnoRelSim2D -> MagnoRelSim2D -> Prop.
Hypothesis Rel_refl : forall s, Rel s s.
Hypothesis Rel_trans : forall s1 s2 s3, Rel s1 s2 -> Rel s2 s3 -> Rel s1 s3.

Lemma keeps_bind {A B : Type} (m : M A) (k : A -> M B) :
  keeps Rel m -> (forall a, keeps Rel (k a)) -> keeps Rel (bind m k).
Proof.
  intros Hm Hk self. unfold bind.
  specialize (Hm self). destruct (m self) as [[a | e] s1]; cbn in *.
  - eapply Rel_trans; [exact Hm | apply Hk].
  - exact Hm.
Qed.

Lemma keeps_ret {A : Type} (a : A) : keeps Rel (ret a).
Proof. intros self. apply Rel_refl. Qed.

End Keeps.

Lemma set_Bz_fields_only (B' : ndarray) (self : MagnoRelSim2D) :
  shape0 B' = shape0 (Bz self) /\ shape1 B' = shape1 (Bz self) ->
  fields_only self (set_Bz B' self).
Proof. intros H. unfold fields_only, same_shapes; cbn. auto 10. Qed.

Lemma set_Ex_fields_only (E' : ndarray) (self : MagnoRelSim2D) :
  shape0 E' = shape0 (Ex self) /\ shape1 E' = shape1 (Ex self) ->
  fields_only self (set_Ex E' self).
Proof. intros H. unfold fields_only, same_shapes; cbn. auto 10. Qed.

Lemma set_Ey_fields_only (E' : ndarray) (self : MagnoRelSim2D) :
  shape0 E' = shape0 (Ey self) /\ shape1 E' = shape1 (Ey self) ->
  fields_only self (set_Ey E' self).
Proof. intros H. unfold fields_only, same_shapes; cbn. auto 10. Qed.

Lemma advance_Bz_fields_only (apply_source : option source) (t : Z) :
  keeps fields_only (advance_Bz apply_source t).
Proof.
  intros self. unfold advance_Bz, bind, eval, assign, ret.
  destruct (curl_E self) as [curlE | e]; [| apply fields_only_refl].
  destruct (subscript _ _ _) as [w | e]; [| apply fields_only_refl].
  cbn [bindR].
  destruct (arr_binop _ _ _) as [rhs | e]; [| apply fields_only_refl].
  cbn [bindR].
  destruct (inplace_slice _ _ _ _ _) as [Bz1 | e] eqn:H1;
    [| apply fields_only_refl].
  apply inplace_slice_shape in H1.
  pose proof (set_Bz_fields_only Bz1 self H1) as S1.
  destruct apply_source as [src |]; [| exact S1].
  destruct (inplace _ _ _) as [Bz2 | e] eqn:H2; [| exact S1].
  apply inplace_shape in H2.
  eapply fields_only_trans; [exact S1 |].
  apply set_Bz_fields_only. exact H2.
Qed.

Lemma advance_E_fields_only : keeps fields_only advance_E.
Proof.
  intros self. unfold advance_E, bind, eval, assign.
  rewrite curl_B_Done. cbn [fst snd].
  destruct (E_rhs self _ _ _) as [r1 | e]; [| apply fields_only_refl].
  cbn [bindR].
  destruct (inplace _ _ _) as [Ex1 | e] eqn:H1; [| apply fields_only_refl].
  apply inplace_shape in H1.
  pose proof (set_Ex_fields_only Ex1 self H1) as S1.
  destruct (E_rhs _ _ _ _) as [r2 | e]; [| exact S1].
  cbn [bindR].
  destruct (inplace _ _ _) as [Ey1 | e] eqn:H2; [| exact S1].
  apply inplace_shape in H2.
  eapply fields_only_trans; [exact S1 |].
  apply set_Ey_fields_only. exact H2.
Qed.

Lemma damp_edges_fields_only : keeps fields_only damp_edges.
Proof. intros self. unfold fields_only, same_shapes; cbn. auto 10. Qed.

Lemma record_energy_keeps_shapes : keeps same_shapes record_energy.
Proof. intros self. unfold same_shapes; cbn. auto 10. Qed.

Lemma keeps_fields_only_shapes {A : Type} (m : M A) :
  keeps fields_only m -> keeps same_shapes m.
Proof. intros H self. apply H. Qed.

(** The three grids keep their shapes, and the construction parameters their
    values, across any call of [step], also one that raises. *)
Lemma step_keeps_shapes (apply_source : option source) (t : Z) :
  keeps same_shapes (step apply_source t).
Proof.
  unfold step.
  apply (keeps_bind _ same_shapes_trans); [| intros _].
  { apply keeps_fields_only_shapes, advance_Bz_fields_only. }
  apply (keeps_bind _ same_shapes_trans); [| intros _].
  { apply keeps_fields_only_shapes, advance_E_fields_only. }
  apply (keeps_bind _ same_shapes_trans); [| intros _].
  { apply keeps_fields_only_shapes, damp_edges_fields_only. }
  apply record_energy_keeps_shapes.
Qed.

Lemma steps_keeps_shapes (calls : list (option source * Z)) :
  keeps same_shapes (steps calls).
Proof.
  induction calls as [| [src t] rest IH]; cbn [steps].
  - apply keeps_ret, same_shapes_refl.
  - apply (keeps_bind _ same_shapes_trans);
      [apply step_keeps_shapes | intros _; exact IH].
Qed.

(** ** Completion *)

(** A step completes from the staggered shapes when [k_rel] is not zero and
    the source returns a float or an array that broadcasts to [Bz]. *)
Lemma step_completes (self : MagnoRelSim2D) (apply_source : option source)
    (t : Z) :
  shapes_ok self -> k_rel self <> 0 ->
  source_ok apply_source (shape0 (Bz self)) (shape1 (Bz self)) ->
  fst (step apply_source t self) = Done tt.
Proof.
  intros Hs Hk Hsrc.
  destruct (advance_Bz_ok self apply_source t Hs Hk Hsrc) as (B' & HB & HB').
  assert (Hs1 : shapes_ok (set_Bz B' self)).
  { eapply shapes_ok_same; [exact Hs | apply set_Bz_fields_only, HB']. }
  destruct (advance_E_ok _ Hs1) as (Ex1 & Ey1 & HE & _).
  rewrite (step_unfold _ _ _ _ _ HB HE). reflexivity.
Qed.

(** ** Edge damping *)

(** One in-place slice product scales the cells of the window and leaves
    the others. *)
Lemma imul_slice_item (A : ndarray) (s0 s1 : pyslice) (r : R) (i j : nat) :
  item (imul_slice A s0 s1 r) i j =
    if in_window (slice_lo s0 (shape0 A)) (slice_len s0 (shape0 A)) i
       && in_window (slice_lo s1 (shape1 A)) (slice_len s1 (shape1 A)) j
    then item A i j * r
    else item A i j.
Proof.
  unfold imul_slice, setitem, getitem, arr_map, in_window. cbn.
  destruct (Nat.leb_spec (slice_lo s0 (shape0 A)) i);
    destruct (Nat.leb_spec (slice_lo s1 (shape1 A)) j); cbn;
    rewrite ?andb_false_r; try reflexivity.
  destruct (_ && _); [| reflexivity].
  do 2 f_equal; lia.
Qed.

Lemma in_window_upto (m : Z) (len i : nat) :
  (0 <= m)%Z -> (Z.to_nat m <= len)%nat ->
  in_window (slice_lo (upto m) len) (slice_len (upto m) len) i
  = (i <? Z.to_nat m)%nat.
Proof.
  intros Hm Hl. unfold in_window.
  replace (slice_lo (upto m) len) with 0%nat by slice_arith.
  replace (slice_len (upto m) len) with (Z.to_nat m) by slice_arith.
  reflexivity.
Qed.

Lemma in_window_from_neg (m : Z) (len i : nat) :
  (1 <= m)%Z -> (Z.to_nat m <= len)%nat -> (i < len)%nat ->
  in_window (slice_lo (from (- m)) len) (slice_len (from (- m)) len) i
  = (len - Z.to_nat m <=? i)%nat.
Proof.
  intros Hm Hl Hi. unfold in_window.
  replace (slice_lo (from (- m)) len) with (len - Z.to_nat m)%nat
    by slice_arith.
  replace (slice_len (from (- m)) len) with (Z.to_nat m) by slice_arith.
  destruct (Nat.leb_spec (len - Z.to_nat m) i); cbn; [| reflexivity].
  apply Nat.ltb_lt. lia.
Qed.

Lemma in_window_full (len i : nat) :
  (i < len)%nat ->
  in_window (slice_lo full len) (slice_len full len) i = true.
Proof.
  intros Hi. unfold in_window. rewrite slice_lo_full, slice_len_full.
  cbn. apply Nat.ltb_lt. lia.
Qed.

(** The cells of a damped array, for any margin of at least one cell whose
    two strips do not overlap on either axis. *)
Lemma _edge_damp_item (A : ndarray) (margin : Z) (factor : R) (i j : nat) :
  (1 <= margin)%Z ->
  (2 * Z.to_nat margin < shape0 A)%nat ->
  (2 * Z.to_nat margin < shape1 A)%nat ->
  (i < shape0 A)%nat -> (j < shape1 A)%nat ->
  item (_edge_damp A margin factor) i j =
    if near_edge (Z.to_nat margin) (shape0 A) i
       && near_edge (Z.to_nat margin) (shape1 A) j
    then item A i j * factor ^ 2
    else if near_edge (Z.to_nat margin) (shape0 A) i
            || near_edge (Z.to_nat margin) (shape1 A) j
    then item A i j * factor
    else item A i j.
Proof.
  intros Hm H0 H1 Hi Hj. unfold _edge_damp, near_edge.
  rewrite !imul_slice_item. cbn [imul_slice setitem shape0 shape1].
  rewrite !in_window_full by assumption.
  rewrite !in_window_upto, !in_window_from_neg by lia.
  rewrite !andb_true_r, !andb_true_l.
  destruct (Nat.ltb_spec i (Z.to_nat margin));
    destruct (Nat.leb_spec (shape0 A - Z.to_nat margin) i); try lia;
    destruct (Nat.ltb_spec j (Z.to_nat margin));
    destruct (Nat.leb_spec (shape1 A - Z.to_nat margin) j); try lia;
    cbn; ring.
Qed.

(** ** Energy *)

Lemma sum_upto_nonneg (n : nat) (f : nat -> R) :
  (forall i, 0 <= f i) -> 0 <= sum_upto n f.
Proof.
  intros H. induction n as [| k IH]; cbn; [lra |].
  specialize (H k). lra.
Qed.

Lemma arr_sum_sq_nonneg (A : ndarray) :
  0 <= arr_sum (arr_map (fun x => x ^ 2) A).
Proof.
  unfold arr_sum. cbn.
  apply sum_upto_nonneg. intros i.
  apply sum_upto_nonneg. intros j. nra.
Qed.



Lemma steps_complete (calls : list (option source * Z))
    (self : MagnoRelSim2D) :
  shapes_ok self -> k_rel self <> 0 ->
  Forall (fun call =>
            source_ok (fst call) (shape0 (Bz self)) (shape1 (Bz self)))
         calls ->
  fst (steps calls self) = Done tt.
Proof.
  revert self. induction calls as [| [src t] rest IH]; intros self Hs Hk Hc.
  - reflexivity.
  - inversion Hc as [| ? ? Hsrc Hrest]; subst. cbn [fst] in Hsrc.
    cbn [steps]. unfold bind.
    pose proof (step_completes self src t Hs Hk Hsrc) as Hd.
    pose proof (step_keeps_shapes src t self) as Hsame.
    destruct (step src t self) as [r s1]. cbn [fst snd] in *. subst r.
    apply IH.
    + eapply shapes_ok_same; eassumption.
    + rewrite (same_shapes_k_rel _ _ Hsame). exact Hk.
    + destruct Hsame as (_ & _ & _ & -> & ->). exact Hrest.
Qed.

(** ** The energy history *)

Lemma energy_set_energy_hist (h : list (option R)) (self : MagnoRelSim2D) :
  energy (set_energy_hist h self) = energy self.
Proof. reflexivity. Qed.

(** A completed step appends the energy of the fields it leaves behind; a
    step that raises leaves the history as it was. *)
Lemma step_energy_hist (self : MagnoRelSim2D) (apply_source : option source)
    (t : Z) :
  let out := step apply_source t self in
  match fst out with
  | Done _ => energy_hist (snd out) = energy_hist self ++ [energy (snd out)]
  | Raised _ => energy_hist (snd out) = energy_hist self
  end.
Proof.
  cbn zeta. unfold step, bind.
  pose proof (advance_Bz_fields_only apply_source t self) as [_ H1].
  destruct (advance_Bz apply_source t self) as [[[] | e] s1];
    cbn [fst snd] in *; [| exact H1].
  pose proof (advance_E_fields_only s1) as [_ H2].
  destruct (advance_E s1) as [[[] | e] s2]; cbn [fst snd] in *;
    [| congruence].
  pose proof (damp_edges_fields_only s2) as [_ H3].
  destruct (damp_edges s2) as [[[] | e] s3] eqn:E3; cbn [fst snd] in *.
  - unfold record_energy, assign. cbn [fst snd].
    rewrite energy_set_energy_hist. cbn [energy_hist set_energy_hist].
    congruence.
  - congruence.
Qed.

Lemma steps_energy_hist_prefix (calls : list (option source * Z))
    (self : MagnoRelSim2D) :
  exists appended,
    energy_hist (snd (steps calls self)) = energy_hist self ++ appended /\
    (fst (steps calls self) = Done tt -> length appended = length calls).
Proof.
  revert self. induction calls as [| [src t] rest IH]; intros self.
  - exists []. cbn. rewrite app_nil_r. auto.
  - cbn [steps]. unfold bind.
    pose proof (step_energy_hist self src t) as H. cbn zeta in H.
    destruct (step src t self) as [[[] | e] s1]; cbn [fst snd] in *.
    + destruct (IH s1) as (more & Hm & Hl).
      exists (energy s1 :: more). split.
      * rewrite Hm, H, <- app_assoc. reflexivity.
      * intros Hd. cbn. now rewrite Hl.
    + exists []. rewrite app_nil_r. split; [exact H | discriminate].
Qed.


(** ** Runs *)




Lemma sim_default_constructed :
  __init__ 2 2 1 1 1 1 0 0 0 0 = Done sim_default.
Proof. reflexivity. Qed.

Lemma sim_coupled_constructed :
  __init__ 2 2 1 1 1 1 1 1 1 0 = Done sim_coupled.
Proof. reflexivity. Qed.

Lemma sim_coupled_shapes_ok : shapes_ok sim_coupled.
Proof. exact (__init___shapes_ok _ _ _ _ _ _ _ _ _ _ _ sim_coupled_constructed). Qed.

Lemma sim_coupled_k_rel : k_rel sim_coupled <> 0.
Proof. cbn. lra. Qed.

(** ** Worked examples *)

(** The slices of the code on short axes: [-4:] on 9 and on 3 cells, the
    interior [1:0] of a one-cell axis, [0:-1] on an empty axis. *)
Example slices_on_short_axes :
  slice_lo (from (-4)) 9 = 5%nat /\ slice_len (from (-4)) 9 = 4%nat /\
  slice_lo (from (-4)) 3 = 0%nat /\ slice_len (from (-4)) 3 = 3%nat /\
  slice_len (range 1 0) 1 = 0%nat /\ slice_len (range 0 (-1)) 0 = 0%nat.
Proof. repeat split. Qed.

(** An array that does not broadcast to the target raises [ValueError]; a
    single row does broadcast. *)
Example inplace_broadcasting :
  inplace Rplus (zeros 3 3) (NdArray (zeros 2 2)) = Raised ValueError /\
  exists A, inplace Rplus (zeros 3 3) (NdArray (zeros 1 3)) = Done A.
Proof. split; [reflexivity | eexists; reflexivity]. Qed.

(** One call on the 2 by 2 simulator with [k_rel = 1] and a source that adds
    1.0 to every node.  The grids are smaller than the margin, so each of
    the four slice products of [_edge_damp] covers the whole array: every
    node of [Bz] ends at 0.9 ** 4, [Ex] stays at zero (the flux of a uniform
    [Bz] is zero), and the energy recorded is 0.9 ** 8. *)
Example step_uniform_pulse :
  let out := step (Some (fun _ _ => PyFloat 1)) 0 sim_coupled in
  fst out = Done tt /\
  item (Bz (snd out)) 1 1 = (9 / 10) ^ 4 /\
  item (Ex (snd out)) 1 1 = 0 /\
  energy_hist (snd out) = [Some ((9 / 10) ^ 8)].
Proof.
  assert (Hs : sqrt (1 + 1 * (0 * (0 * 1))) = 1).
  { replace (1 + 1 * (0 * (0 * 1))) with 1 by lra. apply sqrt_1. }
  cbn zeta. unfold step, advance_Bz, advance_E, bind, eval, assign, c_eff.
  destruct (Req_dec_T (k_rel sim_coupled) 0) as [E | _].
  { cbn in E. lra. }
  cbv - [Rplus Rmult Rminus Rdiv Ropp Rinv sqrt IZR].
  rewrite !Hs.
  repeat split.
  - field.
  - field.
  - f_equal. f_equal. field.
Qed.

(** Outside the precondition [nx, ny >= 1]: with [nx = 0] the grid [Ey] has
    no cell, [np.mean] of it is [nan], and so is the energy the completed
    call appends. *)
Example step_empty_grid_appends_nan :
  let self := mk_sim 0 1 1 1 1 1 1 0 0 0 (zeros 1 1) (zeros 0 2) (zeros 1 2) [] in
  __init__ 0 1 1 1 1 1 1 0 0 0 = Done self /\
  fst (step None 0 self) = Done tt /\
  energy_hist (snd (step None 0 self)) = [None].
Proof.
  cbn zeta. split; [reflexivity |].
  unfold step, advance_Bz, advance_E, bind, eval, assign, c_eff.
  cbn [k_rel].
  destruct (Req_dec_T 1 0) as [E | _]; [lra |].
  cbv - [Rplus Rmult Rminus Rdiv Ropp Rinv sqrt IZR].
  split; reflexivity.
Qed.

(** * The claims *)

(** C1 (the code departs from it).  The claim: [c_eff()] is always an array
    of the shape of [Bz], the float [c] broadcast to that shape when
    [k_rel == 0].  The code: on the default simulator, whose [k_rel] is 0,
    [c_eff] evaluates to the bare float [1.0], which has no shape; the
    branch for a non-zero [k_rel] is the array the claim describes
    ([c_eff_nonzero]). *)
Theorem c_eff_default_is_bare_float :
  __init__ 2 2 1 1 1 1 0 0 0 0 = Done sim_default /\
  c_eff sim_default = PyFloat 1 /\
  shape0 (Bz sim_default) = 3%nat /\ shape1 (Bz sim_default) = 3%nat.
Proof.
  split; [reflexivity |]. split; [| split; reflexivity].
  apply (c_eff_zero sim_default). reflexivity.
Qed.

(** C2 (the code departs from it).  The claim: with every coefficient at 0
    and no source, each call of [step] leaves the fields at zero and appends
    the energy 0.  The code: on such a simulator the first call raises
    [TypeError] on line 40, and so does every later one; the fields stay
    zero only because nothing runs, and no energy is ever appended: the
    history is empty after any number of calls. *)
Theorem step_default_appends_nothing :
  __init__ 2 2 1 1 1 1 0 0 0 0 = Done sim_default /\
  step None 0 sim_default = (Raised TypeError, sim_default) /\
  forall calls, energy_hist (snd (steps calls sim_default)) = [].
Proof.
  assert (Hs : shapes_ok sim_default).
  { exact (__init___shapes_ok _ _ _ _ _ _ _ _ _ _ _ sim_default_constructed). }
  split; [reflexivity |]. split.
  - apply step_TypeError; [exact Hs | reflexivity].
  - intros calls. rewrite steps_TypeError; [reflexivity | exact Hs | reflexivity].
Qed.

(** C3.  On every simulator constructed with [k_rel == 0], every call of
    [step] raises [TypeError] and leaves the simulator, that is [Bz], [Ex],
    [Ey] and [energy_hist], exactly as it was; the same holds after any
    number of earlier calls, since none of them changed anything. *)
Theorem step_k_rel_zero_raises_TypeError
    (nx0 ny0 : Z) (dx0 dy0 dt0 c0 a b sg : R) (self : MagnoRelSim2D) :
  __init__ nx0 ny0 dx0 dy0 dt0 c0 0 a b sg = Done self ->
  forall (earlier : list (option source * Z)) (apply_source : option source)
         (t : Z),
    snd (steps earlier self) = self /\
    step apply_source t self = (Raised TypeError, self).
Proof.
  intros H earlier apply_source t.
  pose proof (__init___shapes_ok _ _ _ _ _ _ _ _ _ _ _ H) as Hs.
  apply __init___inv in H as (_ & _ & Hself).
  assert (Hk : k_rel self = 0) by (rewrite Hself; reflexivity).
  split.
  - apply steps_TypeError; assumption.
  - apply step_TypeError; assumption.
Qed.

Lemma step_k_rel_zero_raises_TypeError_witness :
  snd (steps [(None, 0%Z)] sim_default) = sim_default /\
  step None 1 sim_default = (Raised TypeError, sim_default).
Proof.
  apply (step_k_rel_zero_raises_TypeError 2 2 1 1 1 1 0 0 0 sim_default).
  reflexivity.
Defined.

(** C4.  In a call of [step] whose update of [Bz] (interior update, then
    source) completes and leaves the simulator [s1], [curl_B] yields two
    flux arrays of the shapes of [Ex] and [Ey], the forward difference of
    that [Bz] along y over [dy] and the negated forward difference along x
    over [dx]; lines 45 to 49 then complete and, before the edge damping
    that follows, every cell of [Ex] (of [Ey]) is its old value plus
    [dt * (alpha_emerge * flux / (1 + beta_sat * old**2) - sigma_damp * old)]
    with the old value in the saturation denominator. *)
Theorem step_E_update (self : MagnoRelSim2D) (apply_source : option source)
    (t : Z) :
  shapes_ok self ->
  fst (advance_Bz apply_source t self) = Done tt ->
  let s1 := snd (advance_Bz apply_source t self) in
  exists fx fy s2,
    curl_B s1 = Done (fx, fy) /\
    (shape0 fx = shape0 (Ex s1) /\ shape1 fx = shape1 (Ex s1)) /\
    (shape0 fy = shape0 (Ey s1) /\ shape1 fy = shape1 (Ey s1)) /\
    (forall i j, (i < shape0 (Ex s1))%nat -> (j < shape1 (Ex s1))%nat ->
       item fx i j = (item (Bz s1) i (j + 1) - item (Bz s1) i j) / dy s1) /\
    (forall i j, (i < shape0 (Ey s1))%nat -> (j < shape1 (Ey s1))%nat ->
       item fy i j
       = - ((item (Bz s1) (i + 1) j - item (Bz s1) i j) / dx s1)) /\
    advance_E s1 = (Done tt, s2) /\
    step apply_source t self
    = (Done tt, snd (record_energy (snd (damp_edges s2)))) /\
    (forall i j, (i < shape0 (Ex s1))%nat -> (j < shape1 (Ex s1))%nat ->
       item (Ex s2) i j =
         item (Ex s1) i j
         + dt s1 * (alpha_emerge s1 * item fx i j
                    / (1 + beta_sat s1 * (item (Ex s1) i j) ^ 2)
                    - sigma_damp s1 * item (Ex s1) i j)) /\
    (forall i j, (i < shape0 (Ey s1))%nat -> (j < shape1 (Ey s1))%nat ->
       item (Ey s2) i j =
         item (Ey s1) i j
         + dt s1 * (alpha_emerge s1 * item fy i j
                    / (1 + beta_sat s1 * (item (Ey s1) i j) ^ 2)
                    - sigma_damp s1 * item (Ey s1) i j)).
Proof.
  intros Hs Hd s1.
  assert (H1 : advance_Bz apply_source t self = (Done tt, s1)).
  { subst s1. destruct (advance_Bz apply_source t self) as [r s].
    cbn in Hd |- *. now subst r. }
  assert (Hs1 : shapes_ok s1).
  { eapply shapes_ok_same; [exact Hs |].
    apply (advance_Bz_fields_only apply_source t self). }
  destruct (advance_E_ok s1 Hs1) as (Ex1 & Ey1 & HE & _ & _ & Cx & Cy).
  pose proof Hs1 as (Hx & Hy & Hex0 & Hex1 & Hey0 & Hey1 & Hb0 & Hb1).
  exists (flux_Ex s1), (flux_Ey s1), (set_Ey Ey1 (set_Ex Ex1 s1)).
  split; [apply curl_B_Done |].
  split; [cbn; lia |]. split; [cbn; lia |].
  split; [intros i j Hi Hj; apply flux_Ex_item; lia |].
  split; [intros i j Hi Hj; apply flux_Ey_item; lia |].
  split; [exact HE |].
  split; [exact (step_unfold _ _ _ _ _ H1 HE) |].
  split.
  - intros i j Hi Hj. cbn [Ex set_Ex set_Ey].
    rewrite (Cx i j Hi Hj), flux_Ex_item by lia. reflexivity.
  - intros i j Hi Hj. cbn [Ey set_Ex set_Ey].
    rewrite (Cy i j Hi Hj), flux_Ey_item by lia. reflexivity.
Qed.

Lemma sim_coupled_advance_Bz :
  fst (advance_Bz None 0 sim_coupled) = Done tt.
Proof.
  destruct (advance_Bz_ok sim_coupled None 0 sim_coupled_shapes_ok
              sim_coupled_k_rel I) as (B' & -> & _).
  reflexivity.
Qed.

Lemma step_E_update_witness :
  let s1 := snd (advance_Bz None 0 sim_coupled) in
  exists fx fy s2,
    curl_B s1 = Done (fx, fy) /\
    (shape0 fx = shape0 (Ex s1) /\ shape1 fx = shape1 (Ex s1)) /\
    (shape0 fy = shape0 (Ey s1) /\ shape1 fy = shape1 (Ey s1)) /\
    (forall i j, (i < shape0 (Ex s1))%nat -> (j < shape1 (Ex s1))%nat ->
       item fx i j = (item (Bz s1) i (j + 1) - item (Bz s1) i j) / dy s1) /\
    (forall i j, (i < shape0 (Ey s1))%nat -> (j < shape1 (Ey s1))%nat ->
       item fy i j
       = - ((item (Bz s1) (i + 1) j - item (Bz s1) i j) / dx s1)) /\
    advance_E s1 = (Done tt, s2) /\
    step None 0 sim_coupled
    = (Done tt, snd (record_energy (snd (damp_edges s2)))) /\
    (forall i j, (i < shape0 (Ex s1))%nat -> (j < shape1 (Ex s1))%nat ->
       item (Ex s2) i j =
         item (Ex s1) i j
         + dt s1 * (alpha_emerge s1 * item fx i j
                    / (1 + beta_sat s1 * (item (Ex s1) i j) ^ 2)
                    - sigma_damp s1 * item (Ex s1) i j)) /\
    (forall i j, (i < shape0 (Ey s1))%nat -> (j < shape1 (Ey s1))%nat ->
       item (Ey s2) i j =
         item (Ey s1) i j
         + dt s1 * (alpha_emerge s1 * item fy i j
                    / (1 + beta_sat s1 * (item (Ey s1) i j) ^ 2)
                    - sigma_damp s1 * item (Ey s1) i j)).
Proof.
  apply (step_E_update sim_coupled None 0).
  - exact sim_coupled_shapes_ok.
  - exact sim_coupled_advance_Bz.
Defined.

(** C5.  For every array whose two dimensions both exceed twice the margin,
    one application of [_edge_damp] with its defaults (margin 4, factor 0.9)
    keeps the shape, multiplies each cell within 4 cells of both a row edge
    and a column edge by factor squared, each cell within 4 cells of exactly
    one edge by factor, and leaves every other cell unchanged. *)
Theorem edge_damp_default_cells (A : ndarray) (i j : nat) :
  (2 * 4 < shape0 A)%nat -> (2 * 4 < shape1 A)%nat ->
  (i < shape0 A)%nat -> (j < shape1 A)%nat ->
  let D := _edge_damp A default_margin default_factor in
  (shape0 D = shape0 A /\ shape1 D = shape1 A) /\
  item D i j =
    if near_edge 4 (shape0 A) i && near_edge 4 (shape1 A) j
    then item A i j * default_factor ^ 2
    else if near_edge 4 (shape0 A) i || near_edge 4 (shape1 A) j
    then item A i j * default_factor
    else item A i j.
Proof.
  intros H0 H1 Hi Hj D. split; [apply _edge_damp_shape |].
  subst D. unfold default_margin.
  rewrite _edge_damp_item; [reflexivity | lia | cbn; lia | cbn; lia | | ];
    assumption.
Qed.

Lemma edge_damp_default_cells_witness :
  (item (_edge_damp ones_9x9 default_margin default_factor) 0 0
   = 1 * default_factor ^ 2) /\
  (item (_edge_damp ones_9x9 default_margin default_factor) 0 4
   = 1 * default_factor) /\
  (item (_edge_damp ones_9x9 default_margin default_factor) 4 4 = 1).
Proof.
  assert (H9 : (2 * 4 < 9)%nat) by lia.
  split; [| split].
  - apply (edge_damp_default_cells ones_9x9 0 0 H9 H9); cbn; lia.
  - apply (edge_damp_default_cells ones_9x9 0 4 H9 H9); cbn; lia.
  - apply (edge_damp_default_cells ones_9x9 4 4 H9 H9); cbn; lia.
Defined.


Lemma sim_coupled_two_steps :
  fst (steps [(None, 0%Z); (None, 1%Z)] sim_coupled) = Done tt.
Proof.
  apply steps_complete.
  - exact sim_coupled_shapes_ok.
  - exact sim_coupled_k_rel.
  - repeat constructor.
Qed.




(** C8.  For [nx, ny >= 1] construction succeeds; [Bz] has shape
    [(nx+1, ny+1)], [Ex] has shape [(nx+1, ny)], [Ey] has shape
    [(nx, ny+1)], every cell is zero; and after any sequence of [step]
    calls, completed or not, the three shapes are what they were. *)
Theorem shapes_invariant (nx0 ny0 : Z) (dx0 dy0 dt0 c0 k a b sg : R) :
  (1 <= nx0)%Z -> (1 <= ny0)%Z ->
  exists self,
    __init__ nx0 ny0 dx0 dy0 dt0 c0 k a b sg = Done self /\
    (Z.of_nat (shape0 (Bz self)) = (nx0 + 1)%Z /\
     Z.of_nat (shape1 (Bz self)) = (ny0 + 1)%Z) /\
    (Z.of_nat (shape0 (Ex self)) = (nx0 + 1)%Z /\
     Z.of_nat (shape1 (Ex self)) = ny0) /\
    (Z.of_nat (shape0 (Ey self)) = nx0 /\
     Z.of_nat (shape1 (Ey self)) = (ny0 + 1)%Z) /\
    (forall i j, item (Bz self) i j = 0 /\ item (Ex self) i j = 0 /\
                 item (Ey self) i j = 0) /\
    forall calls : list (option source * Z),
      let self' := snd (steps calls self) in
      (shape0 (Bz self') = shape0 (Bz self) /\
       shape1 (Bz self') = shape1 (Bz self)) /\
      (shape0 (Ex self') = shape0 (Ex self) /\
       shape1 (Ex self') = shape1 (Ex self)) /\
      (shape0 (Ey self') = shape0 (Ey self) /\
       shape1 (Ey self') = shape1 (Ey self)).
Proof.
  intros Hx Hy. eexists. split.
  { apply __init___Done; lia. }
  cbn [Bz Ex Ey zeros shape0 shape1 item].
  split; [lia |]. split; [lia |]. split; [lia |].
  split; [auto |].
  intros calls.
  destruct (steps_keeps_shapes calls
              (mk_sim nx0 ny0 dx0 dy0 dt0 c0 k a b sg
                 (zeros (Z.to_nat (nx0 + 1)) (Z.to_nat ny0))
                 (zeros (Z.to_nat nx0) (Z.to_nat (ny0 + 1)))
                 (zeros (Z.to_nat (nx0 + 1)) (Z.to_nat (ny0 + 1))) []))
    as (_ & HEx & HEy & HBz).
  cbn [Bz Ex Ey zeros shape0 shape1] in *. auto.
Qed.

Lemma shapes_invariant_witness :
  exists self,
    __init__ 2 2 1 1 1 1 1 1 1 0 = Done self /\
    (Z.of_nat (shape0 (Bz self)) = (2 + 1)%Z /\
     Z.of_nat (shape1 (Bz self)) = (2 + 1)%Z) /\
    (Z.of_nat (shape0 (Ex self)) = (2 + 1)%Z /\
     Z.of_nat (shape1 (Ex self)) = 2%Z) /\
    (Z.of_nat (shape0 (Ey self)) = 2%Z /\
     Z.of_nat (shape1 (Ey self)) = (2 + 1)%Z) /\
    (forall i j, item (Bz self) i j = 0 /\ item (Ex self) i j = 0 /\
                 item (Ey self) i j = 0) /\
    forall calls : list (option source * Z),
      let self' := snd (steps calls self) in
      (shape0 (Bz self') = shape0 (Bz self) /\
       shape1 (Bz self') = shape1 (Bz self)) /\
      (shape0 (Ex self') = shape0 (Ex self) /\
       shape1 (Ex self') = shape1 (Ex self)) /\
      (shape0 (Ey self') = shape0 (Ey self) /\
       shape1 (Ey self') = shape1 (Ey self)).
Proof.
  apply (shapes_invariant 2 2 1 1 1 1 1 1 1 0); lia.
Defined.



(** C10 (counterexample).  With no cell on either axis, a zero [dx], a
    negative [dy] and a zero [dt] the constructor raises nothing and returns
    a simulator. *)
Lemma init_accepts_invalid :
  ~ valid_config 0 0 0 (-1) 0 /\
  __init__ 0 0 0 (-1) 0 1 0 0 0 0 =
    Done (mk_sim 0 0 0 (-1) 0 1 0 0 0 0
            (zeros 1 0) (zeros 0 1) (zeros 1 1) []).
Proof.
  split; [| reflexivity].
  unfold valid_config. intros (H & _). lia.
Qed.

(** C10 (amended).  The constructor checks nothing itself: for every
    [nx >= 0] and [ny >= 0], whatever [dx], [dy] and [dt] are, it returns
    the simulator of its arguments with three zero grids; for a negative
    [nx] or [ny] it fails with the [ValueError] of [np.zeros] and yields no
    simulator; it never raises [ConfigurationError]. *)
Theorem init_total (nx0 ny0 : Z) (dx0 dy0 dt0 c0 k a b sg : R) :
  __init__ nx0 ny0 dx0 dy0 dt0 c0 k a b sg =
    if ((nx0 <? 0) || (ny0 <? 0))%Z then Raised ValueError
    else Done (mk_sim nx0 ny0 dx0 dy0 dt0 c0 k a b sg
                 (zeros (Z.to_nat (nx0 + 1)) (Z.to_nat ny0))
                 (zeros (Z.to_nat nx0) (Z.to_nat (ny0 + 1)))
                 (zeros (Z.to_nat (nx0 + 1)) (Z.to_nat (ny0 + 1)))
                 []).
Proof.
  destruct (Z.ltb_spec nx0 0) as [Hx | Hx]; cbn [orb].
  - apply __init___Raised. lia.
  - destruct (Z.ltb_spec ny0 0) as [Hy | Hy].
    + apply __init___Raised. lia.
    + apply __init___Done; lia.
Qed.

(** * Further properties *)

(** ** Edge damping on any array *)

Ltac bool_arith :=
  repeat match goal with
         | |- context [(?a <? ?b)%Z] => destruct (Z.ltb_spec a b)
         | |- context [(?a <=? ?b)%Z] => destruct (Z.leb_spec a b)
         | |- context [(?a =? ?b)%Z] => destruct (Z.eqb_spec a b)
         | |- context [(?a <? ?b)%nat] => destruct (Nat.ltb_spec a b)
         | |- context [(?a <=? ?b)%nat] => destruct (Nat.leb_spec a b)
         end;
  cbn; try reflexivity; try lia.

Lemma in_window_low_strip (margin : Z) (len i : nat) :
  (0 <= margin)%Z -> (i < len)%nat ->
  in_window (slice_lo (upto margin) len) (slice_len (upto margin) len) i
  = (Z.of_nat i <? margin)%Z.
Proof.
  intros Hm Hi.
  unfold in_window, slice_lo, slice_len, adjust, upto; cbn [start stop].
  bool_arith.
Qed.

Lemma in_window_high_strip (margin : Z) (len i : nat) :
  (0 <= margin)%Z -> (i < len)%nat ->
  in_window (slice_lo (from (- margin)) len)
    (slice_len (from (- margin)) len) i
  = ((margin =? 0) || (Z.of_nat len - margin <=? Z.of_nat i))%Z.
Proof.
  intros Hm Hi.
  unfold in_window, slice_lo, slice_len, adjust, from; cbn [start stop].
  bool_arith.
Qed.

(** Each cell is multiplied by the factor once for every strip it lies
    in. *)
Lemma _edge_damp_hits (A : ndarray) (margin : Z) (factor : R) (i j : nat) :
  (0 <= margin)%Z -> (i < shape0 A)%nat -> (j < shape1 A)%nat ->
  item (_edge_damp A margin factor) i j =
    item A i j
    * factor ^ (hits margin (shape0 A) i + hits margin (shape1 A) j).
Proof.
  intros Hm Hi Hj. unfold _edge_damp.
  rewrite !imul_slice_item. cbn [imul_slice setitem shape0 shape1].
  rewrite !in_window_full by assumption.
  rewrite !in_window_low_strip, !in_window_high_strip by assumption.
  rewrite !andb_true_r, !andb_true_l. unfold hits.
  destruct (Z.of_nat i <? margin)%Z;
    destruct ((margin =? 0) || (Z.of_nat (shape0 A) - margin <=? Z.of_nat i))%Z;
    destruct (Z.of_nat j <? margin)%Z;
    destruct ((margin =? 0) || (Z.of_nat (shape1 A) - margin <=? Z.of_nat j))%Z;
    cbn; ring.
Qed.

Lemma hits_small_axis (margin : Z) (len i : nat) :
  (Z.of_nat len <= margin)%Z -> (i < len)%nat -> hits margin len i = 2%nat.
Proof. intros Hl Hi. unfold hits. bool_arith. Qed.

Lemma hits_zero_margin (len i : nat) : hits 0 len i = 1%nat.
Proof. unfold hits. bool_arith. Qed.

Lemma hits_far (margin : Z) (len i : nat) :
  (1 <= margin)%Z ->
  (margin <= Z.of_nat i)%Z -> (Z.of_nat i < Z.of_nat len - margin)%Z ->
  hits margin len i = 0%nat.
Proof. intros H0 H1 H2. unfold hits. bool_arith. Qed.

(** X5.  Whatever the shape of the array and whatever margin of at least 0,
    [_edge_damp] keeps the shape and multiplies each cell by the factor once
    for every strip the cell lies in: the first and the last [margin] rows,
    the first and the last [margin] columns, where the "last 0" rows or
    columns are all of them.  A cell at least [margin] (at least 1) away
    from all four edges is left as it is. *)
Theorem edge_damp_power (A : ndarray) (margin : Z) (factor : R) (i j : nat) :
  (0 <= margin)%Z -> (i < shape0 A)%nat -> (j < shape1 A)%nat ->
  (shape0 (_edge_damp A margin factor) = shape0 A /\
   shape1 (_edge_damp A margin factor) = shape1 A) /\
  item (_edge_damp A margin factor) i j =
    item A i j
    * factor ^ (hits margin (shape0 A) i + hits margin (shape1 A) j) /\
  ((1 <= margin)%Z ->
   (margin <= Z.of_nat i < Z.of_nat (shape0 A) - margin)%Z ->
   (margin <= Z.of_nat j < Z.of_nat (shape1 A) - margin)%Z ->
   item (_edge_damp A margin factor) i j = item A i j).
Proof.
  intros Hm Hi Hj. split; [apply _edge_damp_shape |].
  split; [apply _edge_damp_hits; assumption |].
  intros Hm1 [Hi1 Hi2] [Hj1 Hj2].
  rewrite _edge_damp_hits by assumption.
  rewrite !hits_far by assumption. cbn. ring.
Qed.

Lemma edge_damp_power_witness :
  item (_edge_damp ones_9x9 4 (9 / 10)) 0 4 =
    item ones_9x9 0 4
    * (9 / 10) ^ (hits 4 (shape0 ones_9x9) 0 + hits 4 (shape1 ones_9x9) 4) /\
  item (_edge_damp ones_9x9 4 (9 / 10)) 4 4 = item ones_9x9 4 4.
Proof.
  split.
  - apply (edge_damp_power ones_9x9 4 (9 / 10) 0 4); cbn; lia.
  - apply (edge_damp_power ones_9x9 4 (9 / 10) 4 4); cbn; lia.
Defined.

(** X6.  Two edge cases of [_edge_damp].  On an array no larger than the
    margin on both axes every cell lies in all four strips and is multiplied
    by the fourth power of the factor; with [margin = 0] damping is not
    switched off: [A[-0:, :]] and [A[:, -0:]] are the whole array, and every
    cell is multiplied by the square of the factor. *)
Theorem edge_damp_small_and_zero_margin (A : ndarray) (factor : R) (i j : nat) :
  (i < shape0 A)%nat -> (j < shape1 A)%nat ->
  (forall margin : Z,
     (Z.of_nat (shape0 A) <= margin)%Z -> (Z.of_nat (shape1 A) <= margin)%Z ->
     item (_edge_damp A margin factor) i j = item A i j * factor ^ 4) /\
  item (_edge_damp A 0 factor) i j = item A i j * factor ^ 2.
Proof.
  intros Hi Hj. split.
  - intros margin H0 H1.
    rewrite _edge_damp_hits by lia.
    rewrite !hits_small_axis by lia. reflexivity.
  - rewrite _edge_damp_hits by lia.
    rewrite !hits_zero_margin. reflexivity.
Qed.

Lemma edge_damp_small_and_zero_margin_witness :
  (forall margin : Z,
     (Z.of_nat 3 <= margin)%Z -> (Z.of_nat 3 <= margin)%Z ->
     item (_edge_damp (ones 3 3) margin (9 / 10)) 1 1
     = item (ones 3 3) 1 1 * (9 / 10) ^ 4) /\
  item (_edge_damp (ones 3 3) 0 (9 / 10)) 1 1
  = item (ones 3 3) 1 1 * (9 / 10) ^ 2.
Proof.
  apply (edge_damp_small_and_zero_margin (ones 3 3) (9 / 10) 1 1); cbn; lia.
Defined.

(** ** The curl of [E] and the update of [Bz], cell by cell *)

Lemma slice_lo_interior (n : Z) (len : nat) :
  (1 <= len)%nat -> slice_lo (range 1 n) len = 1%nat.
Proof. intros; slice_arith. Qed.

Lemma slice_lo_shifted (n : Z) (len : nat) : slice_lo (range 0 n) len = 0%nat.
Proof. slice_arith. Qed.

(** [curl_E] on the constructor's shapes: the shape and the cells of its
    result. *)
Lemma curl_E_item (self : MagnoRelSim2D) :
  shapes_ok self ->
  exists C,
    curl_E self = Done C /\
    shape0 C = Z.to_nat (nx self - 1) /\
    shape1 C = Z.to_nat (ny self - 1) /\
    forall i j, (i < shape0 C)%nat -> (j < shape1 C)%nat ->
      item C i j =
        (item (Ex self) (1 + i) (1 + j) - item (Ex self) (1 + i) j) / dy self
        - (item (Ey self) (1 + i) (1 + j) - item (Ey self) i (1 + j))
          / dx self.
Proof.
  intros (Hx & Hy & Hex0 & Hex1 & Hey0 & Hey1 & _ & _).
  unfold curl_E.
  rewrite (arr_binop_same Rminus (getitem (Ex self) _ _)).
  2: reflexivity.
  2: { cbn. rewrite slice_len_interior, slice_len_shifted by lia. reflexivity. }
  cbn [bindR].
  rewrite (arr_binop_same Rminus (getitem (Ey self) _ _)).
  2: { cbn. rewrite slice_len_interior, slice_len_shifted by lia. reflexivity. }
  2: reflexivity.
  cbn [bindR].
  rewrite arr_binop_same.
  2, 3: cbn; rewrite !slice_len_interior by lia; reflexivity.
  eexists; split; [reflexivity |].
  cbn [shape0 shape1 arr_map getitem].
  rewrite !slice_len_interior by lia.
  split; [reflexivity |]. split; [reflexivity |].
  intros i j Hi Hj. unfold bcast_item. cbn.
  rewrite !slice_len_interior, !slice_len_shifted by lia.
  rewrite !(bcast_idx_lt _ i), !(bcast_idx_lt _ j) by lia.
  rewrite !slice_lo_interior, !slice_lo_shifted by lia.
  reflexivity.
Qed.

(** X1.  On the shapes the constructor gives, [curl_E] does not raise; its
    result has the shape [(nx-1, ny-1)] of the interior window of [Bz], so
    that it lines up with that window cell for cell; and the cell that
    meets the interior node [(i, j)] of [Bz] is the backward difference of
    [Ex] along y over [dy] minus the backward difference of [Ey] along x
    over [dx], both taken at the node. *)
Theorem curl_E_cells (self : MagnoRelSim2D) :
  shapes_ok self ->
  exists C,
    curl_E self = Done C /\
    (Z.of_nat (shape0 C) = Z.max 0 (nx self - 1) /\
     Z.of_nat (shape1 C) = Z.max 0 (ny self - 1)) /\
    (shape0 C = slice_len (range 1 (nx self)) (shape0 (Bz self)) /\
     shape1 C = slice_len (range 1 (ny self)) (shape1 (Bz self))) /\
    forall i j, interior self i j = true ->
      item C (i - 1) (j - 1) =
        (item (Ex self) i j - item (Ex self) i (j - 1)) / dy self
        - (item (Ey self) i j - item (Ey self) (i - 1) j) / dx self.
Proof.
  intros Hs.
  destruct (curl_E_item self Hs) as (C & HC & HC0 & HC1 & Ccells).
  destruct Hs as (Hx & Hy & _ & _ & _ & _ & Hb0 & Hb1).
  exists C. split; [exact HC |].
  split; [lia |].
  split; [rewrite Hb0, Hb1, !slice_len_interior by lia; auto |].
  intros i j Hin. unfold interior in Hin.
  apply andb_true_iff in Hin as [Hi' Hj'].
  apply andb_true_iff in Hi' as [Hi1 Hi2].
  apply andb_true_iff in Hj' as [Hj1 Hj2].
  apply Z.leb_le in Hi1, Hj1. apply Z.ltb_lt in Hi2, Hj2.
  rewrite Ccells by lia.
  replace (1 + (i - 1))%nat with i by lia.
  replace (1 + (j - 1))%nat with j by lia.
  reflexivity.
Qed.

Lemma curl_E_cells_witness :
  exists C,
    curl_E sim_coupled = Done C /\
    (Z.of_nat (shape0 C) = Z.max 0 (nx sim_coupled - 1) /\
     Z.of_nat (shape1 C) = Z.max 0 (ny sim_coupled - 1)) /\
    (shape0 C = slice_len (range 1 (nx sim_coupled)) (shape0 (Bz sim_coupled)) /\
     shape1 C = slice_len (range 1 (ny sim_coupled)) (shape1 (Bz sim_coupled))) /\
    forall i j, interior sim_coupled i j = true ->
      item C (i - 1) (j - 1) =
        (item (Ex sim_coupled) i j - item (Ex sim_coupled) i (j - 1))
        / dy sim_coupled
        - (item (Ey sim_coupled) i j - item (Ey sim_coupled) (i - 1) j)
          / dx sim_coupled.
Proof.
  apply (curl_E_cells sim_coupled). exact sim_coupled_shapes_ok.
Defined.

Lemma in_window_interior (n : Z) (len i : nat) :
  (0 <= n)%Z -> len = Z.to_nat (n + 1) ->
  in_window (slice_lo (range 1 n) len) (slice_len (range 1 n) len) i
  = ((1 <=? Z.of_nat i) && (Z.of_nat i <? n))%Z.
Proof.
  intros Hn ->.
  unfold in_window, slice_lo, slice_len, adjust, range; cbn [start stop].
  bool_arith.
Qed.

Lemma Bz_window_update (self : MagnoRelSim2D) (C : ndarray) :
  shapes_ok self -> k_rel self <> 0 -> curl_E self = Done C ->
  exists B1,
    (let* w := subscript (c_eff self) (range 1 (nx self)) (range 1 (ny self)) in
     let* rhs :=
       arr_binop Rmult
         (arr_map (fun x => dt self * x) (arr_map (fun x => x ^ 2) w)) C in
     inplace_slice Rplus (Bz self)
       (range 1 (nx self)) (range 1 (ny self)) (NdArray rhs)) = Done B1 /\
    (shape0 B1 = shape0 (Bz self) /\ shape1 B1 = shape1 (Bz self)) /\
    forall i j, (i < shape0 (Bz self))%nat -> (j < shape1 (Bz self))%nat ->
      item B1 i j =
        if interior self i j
        then item (Bz self) i j
             + dt self
               * (c self / sqrt (1 + k_rel self * item (Bz self) i j ^ 2)) ^ 2
               * item C (i - 1) (j - 1)
        else item (Bz self) i j.
Proof.
  intros Hs Hk HC.
  destruct (curl_E_ok self Hs) as (C' & HC' & HC0 & HC1).
  rewrite HC in HC'. injection HC' as <-.
  destruct Hs as (Hx & Hy & _ & _ & _ & _ & Hb0 & Hb1).
  unfold c_eff. destruct (Req_dec_T (k_rel self) 0) as [E | _]; [contradiction |].
  cbn [subscript bindR].
  rewrite arr_binop_same.
  2, 3: cbn; rewrite ?Hb0, ?Hb1, ?HC0, ?HC1;
        rewrite slice_len_interior by lia; reflexivity.
  cbn [bindR]. unfold inplace_slice.
  rewrite inplace_same.
  2, 3: cbn; rewrite ?Hb0, ?Hb1; rewrite !slice_len_interior by lia;
        reflexivity.
  cbn [bindR].
  eexists; split; [reflexivity |]. split; [split; reflexivity |].
  intros i j Hi Hj. unfold setitem, interior. cbn [item].
  rewrite !in_window_interior by assumption.
  destruct (((1 <=? Z.of_nat i) && (Z.of_nat i <? nx self)) &&
            ((1 <=? Z.of_nat j) && (Z.of_nat j <? ny self)))%Z eqn:Hin;
    [| reflexivity].
  apply andb_true_iff in Hin as [Hi' Hj'].
  apply andb_true_iff in Hi' as [Hi1 Hi2].
  apply andb_true_iff in Hj' as [Hj1 Hj2].
  apply Z.leb_le in Hi1, Hj1. apply Z.ltb_lt in Hi2, Hj2.
  rewrite !slice_lo_interior by lia.
  unfold bcast_item. cbn [item shape0 shape1 getitem arr_map].
  rewrite !slice_len_interior, !slice_lo_interior by lia.
  rewrite ?HC0, ?HC1.
  rewrite !(bcast_idx_lt _ (i - 1)%nat), !(bcast_idx_lt _ (j - 1)%nat) by lia.
  replace (1 + (i - 1))%nat with i by lia.
  replace (1 + (j - 1))%nat with j by lia.
  reflexivity.
Qed.

Lemma inplace_cells (op : R -> R -> R) (A : ndarray) (v : pyvalue) :
  value_fits A v = true ->
  exists A',
    inplace op A v = Done A' /\
    (shape0 A' = shape0 A /\ shape1 A' = shape1 A) /\
    forall i j, item A' i j = op (item A i j) (added v i j).
Proof.
  destruct v as [r | X]; cbn; intros H.
  - eexists; split; [reflexivity |]. cbn. auto.
  - rewrite H. eexists; split; [reflexivity |]. cbn. auto.
Qed.

Lemma inplace_misfit (op : R -> R -> R) (A : ndarray) (v : pyvalue) :
  value_fits A v = false -> inplace op A v = Raised ValueError.
Proof.
  destruct v as [r | X]; cbn; intros H; [discriminate |].
  now rewrite H.
Qed.

(** The source runs on the grid the interior update left, and a source that
    raises leaves that grid in place. *)
Lemma advance_Bz_split (self : MagnoRelSim2D) (apply_source : option source)
    (t : Z) :
  shapes_ok self -> k_rel self <> 0 ->
  exists B1,
    advance_Bz None t self = (Done tt, set_Bz B1 self) /\
    (shape0 B1 = shape0 (Bz self) /\ shape1 B1 = shape1 (Bz self)) /\
    (forall i j, (i < shape0 (Bz self))%nat -> (j < shape1 (Bz self))%nat ->
       item B1 i j =
         if interior self i j
         then item (Bz self) i j
              + dt self
                * (c self / sqrt (1 + k_rel self * item (Bz self) i j ^ 2)) ^ 2
                * ((item (Ex self) i j - item (Ex self) i (j - 1)) / dy self
                   - (item (Ey self) i j - item (Ey self) (i - 1) j)
                     / dx self)
         else item (Bz self) i j) /\
    advance_Bz apply_source t self =
      match apply_source with
      | None => (Done tt, set_Bz B1 self)
      | Some src =>
          match inplace Rplus B1 (src t B1) with
          | Done B2 => (Done tt, set_Bz B2 self)
          | Raised e => (Raised e, set_Bz B1 self)
          end
      end.
Proof.
  intros Hs Hk.
  destruct (curl_E_item self Hs) as (C & HC & HC0 & HC1 & Ccells).
  destruct (Bz_window_update self C Hs Hk HC) as (B1 & HB1 & Hsh & Bcells).
  assert (Hsplit : forall src,
    advance_Bz src t self =
      match src with
      | None => (Done tt, set_Bz B1 self)
      | Some f =>
          match inplace Rplus B1 (f t B1) with
          | Done B2 => (Done tt, set_Bz B2 self)
          | Raised e => (Raised e, set_Bz B1 self)
          end
      end).
  { intros src. unfold advance_Bz, bind, eval, assign, ret.
    rewrite HC, HB1. destruct src as [f |]; [| reflexivity].
    cbn [Bz set_Bz]. destruct (inplace Rplus B1 (f t B1)); reflexivity. }
  exists B1. split; [exact (Hsplit None) |]. split; [exact Hsh |].
  split; [| exact (Hsplit apply_source)].
  intros i j Hi Hj. rewrite (Bcells i j Hi Hj).
  destruct (interior self i j) eqn:Hin; [| reflexivity].
  unfold interior in Hin.
  apply andb_true_iff in Hin as [Hi' Hj'].
  apply andb_true_iff in Hi' as [Hi1 Hi2].
  apply andb_true_iff in Hj' as [Hj1 Hj2].
  apply Z.leb_le in Hi1, Hj1. apply Z.ltb_lt in Hi2, Hj2.
  rewrite Ccells by lia.
  replace (1 + (i - 1))%nat with i by lia.
  replace (1 + (j - 1))%nat with j by lia.
  reflexivity.
Qed.

(** X2.  The first statement of [step], for a non-zero [k_rel] and no
    source: it completes, touches nothing but [Bz], and in [Bz] only the
    nodes [1 <= i < nx], [1 <= j < ny]; such a node gains
    [dt * c_eff**2] times the curl of [E] at the node, with [c_eff] taken
    from the old value of the node.  The outer ring of [Bz] keeps its
    values. *)
Theorem Bz_interior_update (self : MagnoRelSim2D) (t : Z) :
  shapes_ok self -> k_rel self <> 0 ->
  let out := advance_Bz None t self in
  fst out = Done tt /\
  Ex (snd out) = Ex self /\ Ey (snd out) = Ey self /\
  energy_hist (snd out) = energy_hist self /\
  (shape0 (Bz (snd out)) = shape0 (Bz self) /\
   shape1 (Bz (snd out)) = shape1 (Bz self)) /\
  forall i j, (i < shape0 (Bz self))%nat -> (j < shape1 (Bz self))%nat ->
    item (Bz (snd out)) i j =
      if interior self i j
      then item (Bz self) i j
           + dt self
             * (c self / sqrt (1 + k_rel self * item (Bz self) i j ^ 2)) ^ 2
             * ((item (Ex self) i j - item (Ex self) i (j - 1)) / dy self
                - (item (Ey self) i j - item (Ey self) (i - 1) j) / dx self)
      else item (Bz self) i j.
Proof.
  intros Hs Hk out.
  destruct (advance_Bz_split self None t Hs Hk) as (B1 & H1 & Hsh & Hc & _).
  subst out. rewrite H1. cbn [fst snd Ex Ey Bz energy_hist set_Bz].
  repeat split; try reflexivity; try apply Hsh. exact Hc.
Qed.

Lemma Bz_interior_update_witness :
  let out := advance_Bz None 0 sim_coupled in
  fst out = Done tt /\
  Ex (snd out) = Ex sim_coupled /\ Ey (snd out) = Ey sim_coupled /\
  energy_hist (snd out) = energy_hist sim_coupled /\
  (shape0 (Bz (snd out)) = shape0 (Bz sim_coupled) /\
   shape1 (Bz (snd out)) = shape1 (Bz sim_coupled)) /\
  forall i j, (i < shape0 (Bz sim_coupled))%nat ->
              (j < shape1 (Bz sim_coupled))%nat ->
    item (Bz (snd out)) i j =
      if interior sim_coupled i j
      then item (Bz sim_coupled) i j
           + dt sim_coupled
             * (c sim_coupled
                / sqrt (1 + k_rel sim_coupled
                            * item (Bz sim_coupled) i j ^ 2)) ^ 2
             * ((item (Ex sim_coupled) i j - item (Ex sim_coupled) i (j - 1))
                / dy sim_coupled
                - (item (Ey sim_coupled) i j
                   - item (Ey sim_coupled) (i - 1) j) / dx sim_coupled)
      else item (Bz sim_coupled) i j.
Proof.
  apply (Bz_interior_update sim_coupled 0).
  - exact sim_coupled_shapes_ok.
  - exact sim_coupled_k_rel.
Defined.

(** X3.  The source is called with the grid the interior update has left,
    and when what it returns broadcasts to [Bz] its value is added to every
    node of that grid, the outer ring included: the same float everywhere,
    or the array cell by cell. *)
Theorem source_added_to_every_node (self : MagnoRelSim2D) (src : source)
    (t : Z) :
  shapes_ok self -> k_rel self <> 0 ->
  let B1 := Bz (snd (advance_Bz None t self)) in
  value_fits B1 (src t B1) = true ->
  let out := advance_Bz (Some src) t self in
  fst out = Done tt /\
  (shape0 (Bz (snd out)) = shape0 (Bz self) /\
   shape1 (Bz (snd out)) = shape1 (Bz self)) /\
  forall i j, item (Bz (snd out)) i j = item B1 i j + added (src t B1) i j.
Proof.
  intros Hs Hk.
  destruct (advance_Bz_split self (Some src) t Hs Hk)
    as (B1' & H1 & Hsh & _ & H2).
  cbn zeta. rewrite H1. cbn [snd Bz set_Bz]. intros Hfit.
  destruct (inplace_cells Rplus B1' (src t B1') Hfit) as (B2 & HB2 & Hsh2 & Hc).
  rewrite H2, HB2. cbn [fst snd Bz set_Bz].
  split; [reflexivity |]. split; [| exact Hc].
  destruct Hsh, Hsh2. split; congruence.
Qed.

Lemma source_added_to_every_node_witness :
  let B1 := Bz (snd (advance_Bz None 0 sim_coupled)) in
  let out := advance_Bz (Some pulse_a) 0 sim_coupled in
  fst out = Done tt /\
  (shape0 (Bz (snd out)) = shape0 (Bz sim_coupled) /\
   shape1 (Bz (snd out)) = shape1 (Bz sim_coupled)) /\
  forall i j,
    item (Bz (snd out)) i j = item B1 i j + added (pulse_a 0%Z B1) i j.
Proof.
  apply (source_added_to_every_node sim_coupled pulse_a 0).
  - exact sim_coupled_shapes_ok.
  - exact sim_coupled_k_rel.
  - reflexivity.
Defined.

(** ** Outcomes of a step *)

Lemma step_after_advance_Bz (self s1 : MagnoRelSim2D)
    (apply_source : option source) (t : Z) :
  shapes_ok self ->
  advance_Bz apply_source t self = (Done tt, s1) ->
  fst (step apply_source t self) = Done tt.
Proof.
  intros Hs H1.
  assert (Hs1 : shapes_ok s1).
  { eapply shapes_ok_same; [exact Hs |].
    pose proof (advance_Bz_fields_only apply_source t self) as [Hf _].
    rewrite H1 in Hf. exact Hf. }
  destruct (advance_E_ok s1 Hs1) as (Ex1 & Ey1 & HE & _).
  rewrite (step_unfold _ _ _ _ _ H1 HE). reflexivity.
Qed.

(** X4.  On the shapes the constructor gives, [step] has exactly three
    outcomes: [TypeError] when [k_rel] is zero; [ValueError] when [k_rel] is
    not zero and the value the source returns, for the grid left by the
    interior update, does not broadcast to [Bz]; completion otherwise. *)
Theorem step_outcome (self : MagnoRelSim2D) (apply_source : option source)
    (t : Z) :
  shapes_ok self ->
  let B1 := Bz (snd (advance_Bz None t self)) in
  fst (step apply_source t self) =
    if Req_dec_T (k_rel self) 0 then Raised TypeError
    else match apply_source with
         | None => Done tt
         | Some src =>
             if value_fits B1 (src t B1) then Done tt else Raised ValueError
         end.
Proof.
  intros Hs. cbn zeta.
  destruct (Req_dec_T (k_rel self) 0) as [Hk | Hk].
  { now rewrite step_TypeError. }
  destruct (advance_Bz_split self apply_source t Hs Hk)
    as (B1 & H1 & _ & _ & H2).
  rewrite H1. cbn [snd Bz set_Bz].
  destruct apply_source as [src |].
  - destruct (value_fits B1 (src t B1)) eqn:Hfit.
    + destruct (inplace_cells Rplus B1 (src t B1) Hfit) as (B2 & HB2 & _).
      rewrite HB2 in H2.
      exact (step_after_advance_Bz _ _ _ _ Hs H2).
    + rewrite (inplace_misfit Rplus B1 (src t B1) Hfit) in H2.
      unfold step, bind. rewrite H2. reflexivity.
  - exact (step_after_advance_Bz _ _ _ _ Hs H2).
Qed.

Lemma misfit_source_misfits (t : Z) :
  let B1 := Bz (snd (advance_Bz None t sim_coupled)) in
  value_fits B1 (misfit_source t B1) = false.
Proof.
  destruct (advance_Bz_split sim_coupled None t sim_coupled_shapes_ok
              sim_coupled_k_rel) as (B1 & H1 & [S0 S1] & _).
  cbn zeta. rewrite H1. cbn [snd Bz set_Bz].
  unfold misfit_source, value_fits. rewrite S0, S1. reflexivity.
Qed.

Lemma step_outcome_witness :
  fst (step (Some misfit_source) 0 sim_coupled) = Raised ValueError.
Proof.
  pose proof (step_outcome sim_coupled (Some misfit_source) 0
                sim_coupled_shapes_ok) as H.
  pose proof (misfit_source_misfits 0) as Hm.
  lazy beta iota zeta in H, Hm. rewrite Hm in H.
  destruct (Req_dec_T (k_rel sim_coupled) 0) as [E | _]; [| exact H].
  exfalso. exact (sim_coupled_k_rel E).
Defined.

(** X7.  A step that fails on the value of its source is not rolled back:
    it leaves the simulator as the interior update of [Bz] alone leaves it,
    with the nodes of the interior already advanced and [Ex], [Ey] and
    [energy_hist] not yet touched. *)
Theorem step_misfit_keeps_interior_update (self : MagnoRelSim2D)
    (src : source) (t : Z) :
  shapes_ok self -> k_rel self <> 0 ->
  let s1 := snd (advance_Bz None t self) in
  value_fits (Bz s1) (src t (Bz s1)) = false ->
  step (Some src) t self = (Raised ValueError, s1) /\
  Ex s1 = Ex self /\ Ey s1 = Ey self /\ energy_hist s1 = energy_hist self.
Proof.
  intros Hs Hk.
  destruct (advance_Bz_split self (Some src) t Hs Hk)
    as (B1 & H1 & _ & _ & H2).
  cbn zeta. rewrite H1. cbn [snd Bz set_Bz]. intros Hfit.
  rewrite (inplace_misfit Rplus B1 (src t B1) Hfit) in H2.
  split; [| repeat split].
  unfold step, bind. rewrite H2. reflexivity.
Qed.

Lemma step_misfit_keeps_interior_update_witness :
  let s1 := snd (advance_Bz None 0 sim_coupled) in
  step (Some misfit_source) 0 sim_coupled = (Raised ValueError, s1) /\
  Ex s1 = Ex sim_coupled /\ Ey s1 = Ey sim_coupled /\
  energy_hist s1 = energy_hist sim_coupled.
Proof.
  apply (step_misfit_keeps_interior_update sim_coupled misfit_source 0).
  - exact sim_coupled_shapes_ok.
  - exact sim_coupled_k_rel.
  - exact (misfit_source_misfits 0).
Defined.

(** ** Damping and energy *)

Lemma sum_upto_le (n : nat) (f g : nat -> R) :
  (forall i, (i < n)%nat -> f i <= g i) -> sum_upto n f <= sum_upto n g.
Proof.
  induction n as [| k IH]; intros H; cbn; [lra |].
  assert (sum_upto k f <= sum_upto k g) by (apply IH; intros; apply H; lia).
  specialize (H k (Nat.lt_succ_diag_r k)). lra.
Qed.

Lemma sum_upto_ext (n : nat) (f g : nat -> R) :
  (forall i, (i < n)%nat -> f i = g i) -> sum_upto n f = sum_upto n g.
Proof.
  induction n as [| k IH]; intros H; cbn; [reflexivity |].
  rewrite IH by (intros; apply H; lia).
  now rewrite (H k (Nat.lt_succ_diag_r k)).
Qed.

Lemma sum_upto_zero (n : nat) : sum_upto n (fun _ => 0) = 0.
Proof. induction n as [| k IH]; cbn; [reflexivity | rewrite IH; lra]. Qed.

Lemma sum_upto_zero_inv (n : nat) (f : nat -> R) :
  (forall i, 0 <= f i) -> sum_upto n f = 0 ->
  forall i, (i < n)%nat -> f i = 0.
Proof.
  intros Hpos. induction n as [| k IH]; intros Hsum i Hi; [lia |].
  cbn in Hsum.
  pose proof (sum_upto_nonneg k f Hpos) as Hk. pose proof (Hpos k) as Hfk.
  destruct (Nat.eq_dec i k) as [-> | Hne]; [lra |].
  apply IH; [lra | lia].
Qed.

Lemma pow_unit_interval (x : R) (n : nat) : 0 <= x <= 1 -> 0 <= x ^ n <= 1.
Proof.
  intros [H0 H1]. split; [apply pow_le; exact H0 |].
  rewrite <- (pow1 n). apply pow_incr. lra.
Qed.

(** X8.  With a factor between 0 and 1, as the default 0.9 is, and any
    margin of at least 0, edge damping never enlarges a cell and never
    raises the sum of the squares of an array, the quantity whose mean
    [step] records as energy. *)
Theorem edge_damp_contracts (A : ndarray) (margin : Z) (factor : R) :
  (0 <= margin)%Z -> 0 <= factor <= 1 ->
  (forall i j, (i < shape0 A)%nat -> (j < shape1 A)%nat ->
     Rabs (item (_edge_damp A margin factor) i j) <= Rabs (item A i j)) /\
  arr_sum (arr_map (fun x => x ^ 2) (_edge_damp A margin factor))
  <= arr_sum (arr_map (fun x => x ^ 2) A).
Proof.
  intros Hm Hf.
  assert (Hp : forall n, 0 <= factor ^ n <= 1)
    by (intros n; apply pow_unit_interval; exact Hf).
  split.
  - intros i j Hi Hj. rewrite _edge_damp_hits by assumption.
    rewrite Rabs_mult.
    specialize (Hp (hits margin (shape0 A) i + hits margin (shape1 A) j)%nat).
    rewrite (Rabs_pos_eq (factor ^ _)) by apply Hp.
    pose proof (Rabs_pos (item A i j)). nra.
  - unfold arr_sum. cbn [arr_map shape0 shape1 item].
    destruct (_edge_damp_shape A margin factor) as [-> ->].
    apply sum_upto_le. intros i Hi.
    apply sum_upto_le. intros j Hj.
    rewrite _edge_damp_hits by assumption.
    specialize (Hp (hits margin (shape0 A) i + hits margin (shape1 A) j)%nat).
    set (p := factor ^ _) in *.
    assert (0 <= item A i j ^ 2) by nra.
    assert (p ^ 2 <= 1) by nra.
    replace ((item A i j * p) ^ 2) with (item A i j ^ 2 * p ^ 2) by ring.
    nra.
Qed.

Lemma edge_damp_contracts_witness :
  (forall i j, (i < shape0 ones_9x9)%nat -> (j < shape1 ones_9x9)%nat ->
     Rabs (item (_edge_damp ones_9x9 default_margin default_factor) i j)
     <= Rabs (item ones_9x9 i j)) /\
  arr_sum (arr_map (fun x => x ^ 2)
             (_edge_damp ones_9x9 default_margin default_factor))
  <= arr_sum (arr_map (fun x => x ^ 2) ones_9x9).
Proof.
  apply (edge_damp_contracts ones_9x9 default_margin default_factor).
  - unfold default_margin. lia.
  - unfold default_factor. lra.
Defined.

Lemma np_mean_sq_zero_iff (A : ndarray) :
  (0 < shape0 A)%nat -> (0 < shape1 A)%nat ->
  exists m, np_mean (arr_map (fun x => x ^ 2) A) = Some m /\ 0 <= m /\
    (m = 0 <->
     forall i j, (i < shape0 A)%nat -> (j < shape1 A)%nat -> item A i j = 0).
Proof.
  intros H0 H1. unfold np_mean, size. cbn [arr_map shape0 shape1].
  destruct (Nat.eqb_spec (shape0 A * shape1 A) 0) as [E | E]; [nia |].
  assert (Hn : 0 < INR (shape0 A * shape1 A)) by (apply lt_0_INR; lia).
  pose proof (arr_sum_sq_nonneg A) as Hs.
  eexists; split; [reflexivity |]. split.
  { apply Rmult_le_pos; [exact Hs | apply Rlt_le, Rinv_0_lt_compat, Hn]. }
  split.
  - intros Hz i j Hi Hj.
    assert (Hsum : arr_sum (arr_map (fun x => x ^ 2) A) = 0).
    { apply (Rmult_eq_reg_r (/ INR (shape0 A * shape1 A))).
      - rewrite Rmult_0_l. exact Hz.
      - apply Rinv_neq_0_compat. lra. }
    unfold arr_sum in Hsum. cbn [arr_map shape0 shape1 item] in Hsum.
    pose proof (sum_upto_zero_inv (shape0 A)
                  (fun i => sum_upto (shape1 A) (fun j => item A i j ^ 2))) as Hrow.
    cbv beta in Hrow.
    assert (Hr : sum_upto (shape1 A) (fun j => item A i j ^ 2) = 0).
    { apply Hrow; [| exact Hsum | exact Hi].
      intros k. apply sum_upto_nonneg. intros l. nra. }
    pose proof (sum_upto_zero_inv (shape1 A) (fun j => item A i j ^ 2)) as Hcell.
    cbv beta in Hcell.
    assert (item A i j ^ 2 = 0).
    { apply Hcell; [intros l; nra | exact Hr | exact Hj]. }
    nra.
  - intros Hz.
    assert (Hsum : arr_sum (arr_map (fun x => x ^ 2) A) = 0).
    { unfold arr_sum. cbn [arr_map shape0 shape1 item].
      rewrite <- (sum_upto_zero (shape0 A)).
      apply sum_upto_ext. intros i Hi.
      rewrite <- (sum_upto_zero (shape1 A)).
      apply sum_upto_ext. intros j Hj. rewrite Hz by assumption. ring. }
    rewrite Hsum. unfold Rdiv. ring.
Qed.



(** ** A completed step, cell by cell *)

Lemma step_cells (self : MagnoRelSim2D) (apply_source : option source)
    (t : Z) :
  shapes_ok self -> k_rel self <> 0 ->
  let B1 := Bz (snd (advance_Bz None t self)) in
  match apply_source with
  | None => True
  | Some src => value_fits B1 (src t B1) = true
  end ->
  let Bp := fun i j => item B1 i j + source_adds apply_source t B1 i j in
  let damp := fun len0 len1 i j =>
    default_factor
    ^ (hits default_margin len0 i + hits default_margin len1 j) in
  exists s',
    step apply_source t self = (Done tt, s') /\
    same_shapes self s' /\
    (forall i j, (i < shape0 (Bz self))%nat -> (j < shape1 (Bz self))%nat ->
       item (Bz s') i j
       = Bp i j * damp (shape0 (Bz self)) (shape1 (Bz self)) i j) /\
    (forall i j, (i < shape0 (Ex self))%nat -> (j < shape1 (Ex self))%nat ->
       item (Ex s') i j
       = (item (Ex self) i j
          + E_increment (dt self) (alpha_emerge self) (beta_sat self)
              (sigma_damp self) ((Bp i (j + 1)%nat - Bp i j) / dy self)
              (item (Ex self) i j))
         * damp (shape0 (Ex self)) (shape1 (Ex self)) i j) /\
    (forall i j, (i < shape0 (Ey self))%nat -> (j < shape1 (Ey self))%nat ->
       item (Ey s') i j
       = (item (Ey self) i j
          + E_increment (dt self) (alpha_emerge self) (beta_sat self)
              (sigma_damp self) (- ((Bp (i + 1)%nat j - Bp i j) / dx self))
              (item (Ey self) i j))
         * damp (shape0 (Ey self)) (shape1 (Ey self)) i j) /\
    energy_hist s' = energy_hist self ++ [energy s'].
Proof.
  intros Hs Hk.
  destruct (advance_Bz_split self apply_source t Hs Hk)
    as (B1 & H1 & Hsh & _ & H2).
  cbn zeta. rewrite H1. cbn [snd Bz set_Bz]. intros Hfit.
  assert (HBp : exists B2,
    advance_Bz apply_source t self = (Done tt, set_Bz B2 self) /\
    (shape0 B2 = shape0 (Bz self) /\ shape1 B2 = shape1 (Bz self)) /\
    forall i j, item B2 i j = item B1 i j + source_adds apply_source t B1 i j).
  { destruct apply_source as [src |].
    - destruct (inplace_cells Rplus B1 (src t B1) Hfit)
        as (B2 & HB2 & Hsh2 & Hc2).
      rewrite HB2 in H2. exists B2. split; [exact H2 |].
      split; [destruct Hsh, Hsh2; split; congruence | exact Hc2].
    - exists B1. split; [exact H2 |]. split; [exact Hsh |].
      intros i j. cbn. ring. }
  destruct HBp as (B2 & HB2 & [S0 S1] & Hc2).
  assert (Hs1 : shapes_ok (set_Bz B2 self)).
  { eapply shapes_ok_same; [exact Hs | apply set_Bz_fields_only; auto]. }
  destruct (advance_E_ok _ Hs1) as (Ex1 & Ey1 & HE & [Sx0 Sx1] & [Sy0 Sy1] & Cx & Cy).
  cbn [Ex Ey Bz set_Bz dt dx dy alpha_emerge beta_sat sigma_damp] in Sx0, Sx1, Sy0, Sy1, Cx, Cy.
  pose proof (step_unfold _ _ _ _ _ HB2 HE) as Hstep.
  pose proof (step_keeps_shapes apply_source t self) as Hsame.
  pose proof (step_energy_hist self apply_source t) as Hen.
  cbn zeta in Hen. rewrite Hstep in Hsame, Hen. cbn [fst snd] in Hsame, Hen.
  eexists. split; [exact Hstep |]. split; [exact Hsame |].
  split; [| split; [| split; [| exact Hen]]].
  - intros i j Hi Hj.
    unfold record_energy, damp_edges, assign, bind.
    cbn [fst snd Bz set_Bz set_Ex set_Ey set_energy_hist].
    rewrite _edge_damp_hits by (unfold default_margin; lia).
    rewrite S0, S1, Hc2. reflexivity.
  - intros i j Hi Hj.
    unfold record_energy, damp_edges, assign, bind.
    cbn [fst snd Ex Bz set_Bz set_Ex set_Ey set_energy_hist].
    rewrite _edge_damp_hits by (unfold default_margin; lia).
    rewrite Sx0, Sx1, (Cx i j Hi Hj), !Hc2. reflexivity.
  - intros i j Hi Hj.
    unfold record_energy, damp_edges, assign, bind.
    cbn [fst snd Ey Bz set_Bz set_Ex set_Ey set_energy_hist].
    rewrite _edge_damp_hits by (unfold default_margin; lia).
    rewrite Sy0, Sy1, (Cy i j Hi Hj), !Hc2. reflexivity.
Qed.

Lemma same_shapes_nx_ny (s s' : MagnoRelSim2D) :
  same_shapes s s' -> nx s' = nx s /\ ny s' = ny s.
Proof. intros (H & _). unfold params in H. split; congruence. Qed.

Lemma energy_all_zero (self : MagnoRelSim2D) :
  shapes_ok self -> (1 <= nx self)%Z -> (1 <= ny self)%Z ->
  all_zero self -> energy self = Some 0.
Proof.
  intros (_ & _ & Hex0 & Hex1 & Hey0 & Hey1 & Hb0 & Hb1) Hx Hy (Zb & Zx & Zy).
  unfold energy.
  destruct (np_mean_sq_zero_iff (Bz self)) as (b & -> & _ & Eb); [lia | lia |].
  destruct (np_mean_sq_zero_iff (Ex self)) as (x & -> & _ & Ex'); [lia | lia |].
  destruct (np_mean_sq_zero_iff (Ey self)) as (y & -> & _ & Ey'); [lia | lia |].
  apply Eb in Zb. apply Ex' in Zx. apply Ey' in Zy. subst. cbn. f_equal. lra.
Qed.

(** One step without a source on zero fields. *)
Lemma zero_step (self : MagnoRelSim2D) (t : Z) :
  shapes_ok self -> k_rel self <> 0 -> all_zero self ->
  exists s',
    step None t self = (Done tt, s') /\ same_shapes self s' /\
    all_zero s' /\ energy_hist s' = energy_hist self ++ [energy s'].
Proof.
  intros Hs Hk (Zb & Zx & Zy).
  destruct (advance_Bz_split self None t Hs Hk) as (B1 & H1 & _ & Hc1 & _).
  pose proof (step_cells self None t Hs Hk) as Hstep.
  cbn zeta in Hstep. rewrite H1 in Hstep. cbn [snd Bz set_Bz] in Hstep.
  destruct (Hstep I) as (s' & Hst & Hsame & Cb & Cx & Cy & Hen).
  pose proof Hs as (Hx & Hy & Hex0 & Hex1 & Hey0 & Hey1 & Hb0 & Hb1).
  assert (Z1 : forall i j, (i < shape0 (Bz self))%nat ->
                           (j < shape1 (Bz self))%nat -> item B1 i j = 0).
  { intros i j Hi Hj. rewrite (Hc1 i j Hi Hj).
    destruct (interior self i j) eqn:Hin; [| apply Zb; assumption].
    unfold interior in Hin.
    apply andb_true_iff in Hin as [Hi' Hj'].
    apply andb_true_iff in Hi' as [Hi1 Hi2].
    apply andb_true_iff in Hj' as [Hj1 Hj2].
    apply Z.leb_le in Hi1, Hj1. apply Z.ltb_lt in Hi2, Hj2.
    rewrite Zb, !Zx, !Zy by lia. unfold Rdiv. ring. }
  exists s'. split; [exact Hst |]. split; [exact Hsame |].
  split; [| exact Hen].
  destruct Hsame as (_ & [Sx0 Sx1] & [Sy0 Sy1] & [Sb0 Sb1]).
  unfold all_zero. rewrite Sx0, Sx1, Sy0, Sy1, Sb0, Sb1.
  split; [| split].
  - intros i j Hi Hj. rewrite Cb, Z1 by assumption. cbn [source_adds]. ring.
  - intros i j Hi Hj. rewrite Cx, Zx by assumption.
    rewrite !Z1 by lia. unfold E_increment, Rdiv. cbn [source_adds]. ring.
  - intros i j Hi Hj. rewrite Cy, Zy by assumption.
    rewrite !Z1 by lia. unfold E_increment, Rdiv. cbn [source_adds]. ring.
Qed.

(** X10.  No spontaneous field, on the path that runs: with a non-zero
    [k_rel], non-zero [dx] and [dy] (a zero one makes the differences 0/0),
    and every cell of the three grids at zero, any number of calls of
    [step] without a source all complete, leave every cell at zero, and for
    [nx, ny >= 1] each appends the energy 0. *)
Theorem zero_fields_stay_zero (self : MagnoRelSim2D) (ts : list Z) :
  shapes_ok self -> k_rel self <> 0 -> dx self <> 0 -> dy self <> 0 ->
  all_zero self ->
  let calls := map (fun t => (@None source, t)) ts in
  let s' := snd (steps calls self) in
  fst (steps calls self) = Done tt /\
  all_zero s' /\
  ((1 <= nx self)%Z -> (1 <= ny self)%Z ->
   energy_hist s' = energy_hist self ++ repeat (Some 0) (length ts)).
Proof.
  intros Hs Hk _ _ Hz. cbn zeta. revert self Hs Hk Hz.
  induction ts as [| t rest IH]; intros self Hs Hk Hz.
  - cbn. rewrite app_nil_r. auto.
  - cbn [map steps]. unfold bind.
    destruct (zero_step self t Hs Hk Hz) as (s1 & Hst & Hsame & Hz1 & Hen).
    rewrite Hst.
    assert (Hs1 : shapes_ok s1) by (eapply shapes_ok_same; eassumption).
    assert (Hk1 : k_rel s1 <> 0)
      by (rewrite (same_shapes_k_rel _ _ Hsame); exact Hk).
    destruct (IH s1 Hs1 Hk1 Hz1) as (Hd & Hzs & Hh).
    destruct (same_shapes_nx_ny _ _ Hsame) as [Ex1 Ey1].
    split; [exact Hd |]. split; [exact Hzs |].
    intros Hx Hy. rewrite Hh by lia. rewrite Hen.
    rewrite (energy_all_zero s1 Hs1) by (try assumption; lia).
    rewrite <- app_assoc. reflexivity.
Qed.

Lemma sim_coupled_all_zero : all_zero sim_coupled.
Proof. unfold all_zero; cbn. auto. Qed.

Lemma zero_fields_stay_zero_witness :
  let calls := map (fun t => (@None source, t)) [0%Z; 1%Z; 2%Z] in
  let s' := snd (steps calls sim_coupled) in
  fst (steps calls sim_coupled) = Done tt /\
  all_zero s' /\
  ((1 <= nx sim_coupled)%Z -> (1 <= ny sim_coupled)%Z ->
   energy_hist s'
   = energy_hist sim_coupled ++ repeat (Some 0) (length [0%Z; 1%Z; 2%Z])).
Proof.
  apply (zero_fields_stay_zero sim_coupled [0%Z; 1%Z; 2%Z]).
  - exact sim_coupled_shapes_ok.
  - exact sim_coupled_k_rel.
  - cbn. lra.
  - cbn. lra.
  - exact sim_coupled_all_zero.
Defined.




(** ** The effective speed and the parameters *)

(** X12.  For a positive [k_rel] and a non-negative [c], [c_eff] is an
    array of the shape of [Bz] whose cells lie between 0 and [c], equal [c]
    where [Bz] is zero, and are the smaller the larger the magnitude of
    [Bz] is at the node. *)
Theorem c_eff_bounded (self : MagnoRelSim2D) :
  0 < k_rel self -> 0 <= c self ->
  exists a,
    c_eff self = NdArray a /\
    (shape0 a = shape0 (Bz self) /\ shape1 a = shape1 (Bz self)) /\
    (forall i j, 0 <= item a i j <= c self) /\
    (forall i j, item (Bz self) i j = 0 -> item a i j = c self) /\
    (forall i j i' j',
       Rabs (item (Bz self) i j) <= Rabs (item (Bz self) i' j') ->
       item a i' j' <= item a i j).
Proof.
  intros Hk Hc.
  destruct (c_eff_nonzero self) as (a & Ha & S0 & S1 & Hcell); [lra |].
  exists a. split; [exact Ha |]. split; [auto |].
  assert (Hroot : forall b, 1 <= sqrt (1 + k_rel self * b ^ 2)).
  { intros b. rewrite <- sqrt_1 at 1. apply sqrt_le_1_alt. nra. }
  split; [| split].
  - intros i j. rewrite Hcell.
    specialize (Hroot (item (Bz self) i j)).
    set (s := sqrt _) in *.
    assert (Hinv : 0 < / s <= 1).
    { split; [apply Rinv_0_lt_compat; lra |].
      rewrite <- Rinv_1. apply Rinv_le_contravar; lra. }
    unfold Rdiv. nra.
  - intros i j Hz. rewrite Hcell, Hz.
    replace (1 + k_rel self * 0 ^ 2) with 1 by ring.
    rewrite sqrt_1. field.
  - intros i j i' j' Hle. rewrite !Hcell.
    pose proof (Hroot (item (Bz self) i j)) as H1.
    pose proof (Hroot (item (Bz self) i' j')) as H2.
    assert (Hsq : item (Bz self) i j ^ 2 <= item (Bz self) i' j' ^ 2).
    { apply Rsqr_le_abs_1 in Hle. unfold Rsqr in Hle. nra. }
    assert (Hmon : sqrt (1 + k_rel self * item (Bz self) i j ^ 2)
                   <= sqrt (1 + k_rel self * item (Bz self) i' j' ^ 2)).
    { apply sqrt_le_1_alt. nra. }
    set (s := sqrt (1 + k_rel self * item (Bz self) i j ^ 2)) in *.
    set (s' := sqrt (1 + k_rel self * item (Bz self) i' j' ^ 2)) in *.
    assert (Hinv : / s' <= / s) by (apply Rinv_le_contravar; lra).
    unfold Rdiv. nra.
Qed.

Lemma c_eff_bounded_witness :
  exists a,
    c_eff sim_coupled = NdArray a /\
    (shape0 a = shape0 (Bz sim_coupled) /\
     shape1 a = shape1 (Bz sim_coupled)) /\
    (forall i j, 0 <= item a i j <= c sim_coupled) /\
    (forall i j, item (Bz sim_coupled) i j = 0 ->
                 item a i j = c sim_coupled) /\
    (forall i j i' j',
       Rabs (item (Bz sim_coupled) i j) <= Rabs (item (Bz sim_coupled) i' j') ->
       item a i' j' <= item a i j).
Proof.
  apply (c_eff_bounded sim_coupled); cbn; lra.
Defined.

(** X13.  No call of [step], completed or not, changes a construction
    parameter: after any sequence of calls on any simulator, [nx], [ny],
    [dx], [dy], [dt], [c], [k_rel], [alpha_emerge], [beta_sat] and
    [sigma_damp] are what they were, and the history still starts with the
    entries it had. *)
Theorem parameters_never_change (self : MagnoRelSim2D)
    (calls : list (option source * Z)) :
  let s' := snd (steps calls self) in
  (nx s' = nx self /\ ny s' = ny self) /\
  (dx s' = dx self /\ dy s' = dy self /\ dt s' = dt self) /\
  (c s' = c self /\ k_rel s' = k_rel self /\
   alpha_emerge s' = alpha_emerge self /\ beta_sat s' = beta_sat self /\
   sigma_damp s' = sigma_damp self) /\
  firstn (length (energy_hist self)) (energy_hist s') = energy_hist self.
Proof.
  cbn zeta.
  destruct (steps_keeps_shapes calls self) as (Hp & _).
  destruct (steps_energy_hist_prefix calls self) as (more & Hm & _).
  unfold params in Hp. injection Hp as -> -> -> -> -> -> -> -> -> ->.
  rewrite Hm.
  repeat split.
  rewrite firstn_app, Nat.sub_diag, firstn_all. cbn. apply app_nil_r.
Qed.

(** ** The drivers *)

Lemma make_source_fits (nx0 ny0 : Z) (sim : MagnoRelSim2D) (src_steps : Z)
    (amp sigma : R) (t : Z) (B : ndarray) :
  shape0 B = shape0 (Bz sim) -> shape1 B = shape1 (Bz sim) ->
  value_fits B (make_source nx0 ny0 sim src_steps amp sigma t B) = true.
Proof.
  intros H0 H1. unfold make_source.
  destruct (t >=? src_steps)%Z; cbn; [reflexivity |].
  now rewrite H0, H1, !fits_same.
Qed.

(** X14.  The loop of the demo scripts: a simulator with the constructor's
    shapes and a non-zero [k_rel], driven through any step indices with the
    Gaussian source built for it, completes every call, and its history
    grows by one entry per call. *)
Theorem gaussian_run_completes (nx0 ny0 : Z) (self : MagnoRelSim2D)
    (src_steps : Z) (amp sigma : R) (ts : list Z) :
  shapes_ok self -> k_rel self <> 0 ->
  let src := make_source nx0 ny0 self src_steps amp sigma in
  let calls := map (fun t => (Some src, t)) ts in
  fst (steps calls self) = Done tt /\
  length (energy_hist (snd (steps calls self)))
  = (length (energy_hist self) + length ts)%nat.
Proof.
  intros Hs Hk. cbn zeta.
  set (calls := map _ ts).
  assert (Hd : fst (steps calls self) = Done tt).
  { apply steps_complete; [exact Hs | exact Hk |].
    subst calls. apply Forall_forall. intros call Hin.
    apply in_map_iff in Hin as (t & <- & _). cbn [fst source_ok].
    intros t' B H0 H1. apply make_source_fits; assumption. }
  split; [exact Hd |].
  destruct (steps_energy_hist_prefix calls self) as (more & -> & Hl).
  rewrite length_app, (Hl Hd). subst calls. now rewrite length_map.
Qed.

Lemma gaussian_run_completes_witness :
  let src := make_source 2 2 sim_coupled 1 1 6 in
  let calls := map (fun t => (Some src, t)) [0%Z; 1%Z] in
  fst (steps calls sim_coupled) = Done tt /\
  length (energy_hist (snd (steps calls sim_coupled)))
  = (length (energy_hist sim_coupled) + length [0%Z; 1%Z])%nat.
Proof.
  apply (gaussian_run_completes 2 2 sim_coupled 1 1 6 [0%Z; 1%Z]).
  - exact sim_coupled_shapes_ok.
  - exact sim_coupled_k_rel.
Defined.




(** X16.  The frame arithmetic of the exporters never asks for a step index
    outside the run: the stride is at least 1 whatever the inputs, and for
    non-negative [steps] and [target_frames] the number of frames is between
    0 and [target_frames], the frames times the stride do not exceed
    [steps], and every index that [update] passes to [step] in a rendered
    frame lies in [0, steps). *)
Theorem frame_indices_in_range (stride_arg steps target_frames : Z) :
  (0 <= steps)%Z -> (0 <= target_frames)%Z ->
  let stride := stride_of stride_arg steps target_frames in
  let frames := frames_to_render stride_arg steps target_frames in
  (1 <= stride)%Z /\
  (0 <= frames <= target_frames)%Z /\
  (frames * stride <= steps)%Z /\
  forall frame_idx s,
    (0 <= frame_idx < frames)%Z -> (0 <= s < stride)%Z ->
    (0 <= frame_step_index stride frame_idx s < steps)%Z.
Proof.
  intros Hs Ht. cbn zeta.
  assert (H1 : (1 <= stride_of stride_arg steps target_frames)%Z).
  { unfold stride_of. destruct (Z.ltb_spec 0 stride_arg); lia. }
  set (stride := stride_of stride_arg steps target_frames) in *.
  unfold frames_to_render. fold stride.
  assert (Hq : (0 <= steps / stride)%Z) by (apply Z.div_pos; lia).
  assert (Hm : (stride * (steps / stride) <= steps)%Z)
    by (apply Z.mul_div_le; lia).
  split; [exact H1 |]. split; [lia |]. split; [nia |].
  intros frame_idx s Hf Hs'. unfold frame_step_index. nia.
Qed.

Lemma frame_indices_in_range_witness :
  let stride := stride_of 0 2000 600 in
  let frames := frames_to_render 0 2000 600 in
  (1 <= stride)%Z /\
  (0 <= frames <= 600)%Z /\
  (frames * stride <= 2000)%Z /\
  forall frame_idx s,
    (0 <= frame_idx < frames)%Z -> (0 <= s < stride)%Z ->
    (0 <= frame_step_index stride frame_idx s < 2000)%Z.
Proof.
  apply (frame_indices_in_range 0 2000 600); lia.
Defined.



Lemma steps_last_energy (calls : list (option source * Z))
    (self : MagnoRelSim2D) :
  calls <> [] -> fst (steps calls self) = Done tt ->
  exists earlier,
    energy_hist (snd (steps calls self))
    = earlier ++ [energy (snd (steps calls self))].
Proof.
  revert self. induction calls as [| [src t] rest IH]; intros self Hne Hd;
    [contradiction |].
  cbn [steps] in *. unfold bind in *.
  pose proof (step_energy_hist self src t) as H. cbn zeta in H.
  destruct (step src t self) as [[[] | e] s1]; cbn [fst snd] in *;
    [| discriminate].
  destruct rest as [| call rest'].
  - cbn. exists (energy_hist self). exact H.
  - apply IH; [discriminate | exact Hd].
Qed.

Lemma final_energy_last (sim : MagnoRelSim2D) (earlier : list (option R))
    (e : option R) :
  energy_hist sim = earlier ++ [e] -> final_energy sim = Some e.
Proof.
  intros H. unfold final_energy. rewrite H.
  destruct (earlier ++ [e]) as [| x l] eqn:E.
  - destruct earlier; discriminate.
  - rewrite <- E. f_equal. apply last_last.
Qed.

(** X18.  The summary of [run_demo.py]: after a run of at least one call in
    which every call completed, ["final_energy"] is the energy of the
    fields as the run left them; on a simulator that was never stepped it
    is [None]. *)
Theorem final_energy_of_run (self : MagnoRelSim2D)
    (calls : list (option source * Z)) :
  fst (steps calls self) = Done tt ->
  let s' := snd (steps calls self) in
  (calls <> [] -> final_energy s' = Some (energy s')) /\
  (calls = [] -> energy_hist self = [] -> final_energy s' = None).
Proof.
  intros Hd. cbn zeta. split.
  - intros Hne.
    destruct (steps_last_energy calls self Hne Hd) as (earlier & He).
    exact (final_energy_last _ _ _ He).
  - intros -> Hh. cbn. unfold final_energy. now rewrite Hh.
Qed.

Lemma final_energy_of_run_witness :
  let calls := [(@None source, 0%Z); (@None source, 1%Z)] in
  let s' := snd (steps calls sim_coupled) in
  (calls <> [] -> final_energy s' = Some (energy s')) /\
  (calls = [] -> energy_hist sim_coupled = [] -> final_energy s' = None).
Proof.
  apply (final_energy_of_run sim_coupled [(None, 0%Z); (None, 1%Z)]).
  exact sim_coupled_two_steps.
Defined.
